(** * Rectifierr front end: trim editor, scan toast and Plex connection flow

    A shallow embedding of three React components of the repository and the
    properties their specification states about them.

    - [JS]    : the JavaScript number operations the components use;
    - [Trim]  : [clamp], [Timeline] and [TrimEditor]
                (frontend/src/components/TrimEditor, second document of
                src/frontend/src/components/Sidebar.tsx);
    - [Toast] : [ScanToast] (second document of src/unnamed/part_001);
    - [Plex]  : [PlexConnect] (src/unnamed/part_000).

    Modelling conventions.

    - A React component is a record of its [useState] / [useRef] cells; every
      handler and effect body is a function from that record to the new
      record and the list of requests and timer operations it performs, in
      program order.
    - Promises and timers are events of a scheduler ([World]): a request that
      was issued stays in flight until its response event, a timer stays
      armed until it fires or is cleared.  An event that cannot happen (a
      response nobody is waiting for, a cleared timer firing, a click on a
      control that is not rendered) makes [step] return [None].
    - JavaScript numbers are IEEE 754 binary64 values: Rocq's primitive
      [float], with [+], [-], [*], [/] and the comparisons of the hardware.
      A decimal literal denotes the nearest double, as it does in
      JavaScript. *)

From Stdlib Require Import ZArith Lia.
From Stdlib Require Import List Bool String.
From Stdlib Require Import Floats.
Import ListNotations.

Set Implicit Arguments.
Set Warnings "-inexact-float".

(* ====================================================================== *)
(** * JavaScript numbers *)
(* ====================================================================== *)

Module JS.

Local Open Scope float_scope.

(** An integer below 2^53 in absolute value as a number. *)
Definition Z_to_float (n : Z) : float :=
  match n with
  | Z0 => zero
  | Zpos _ => of_uint63 (Uint63.of_Z n)
  | Zneg _ => - of_uint63 (Uint63.of_Z (Z.opp n))
  end.

(** [Math.round]: the nearest integer, ties towards +infinity; NaN, the
    infinities and integers are returned as they are, and a result of zero
    keeps the sign of the argument.  A finite [x] is [(-1)^s * m * 2^e]; for
    [e < 0] the result is [floor (x + 1/2)], computed exactly. *)
Definition Math_round (x : float) : float :=
  match Prim2SF x with
  | S754_finite s m e =>
      if (0 <=? e)%Z then x
      else
        let k := Z.opp e in
        let num := (if s then 2 ^ k - 2 * Zpos m else 2 * Zpos m + 2 ^ k)%Z in
        let n := (num / 2 ^ (k + 1))%Z in
        if (n =? 0)%Z then (if s then neg_zero else zero) else Z_to_float n
  | _ => x
  end.

(** [Math.max] and [Math.min] of two numbers: NaN if either is NaN, and
    [+0] counts as larger than [-0]. *)
Definition Math_max (a b : float) : float :=
  if is_nan a || is_nan b then nan
  else if a <? b then b
  else if b <? a then a
  else if get_sign a then b else a.

Definition Math_min (a b : float) : float :=
  if is_nan a || is_nan b then nan
  else if a <? b then a
  else if b <? a then b
  else if get_sign a then a else b.

(** [Math.abs]. *)
Definition Math_abs (x : float) : float := abs x.

(** [Object.is] on numbers, by which React decides whether a state cell
    changed: NaN is NaN, and the two zeros differ. *)
Definition Object_is (a b : float) : bool := Leibniz.eqb a b.

(** ** Order keys

    A number that is not NaN is ordered like its key, read
    lexicographically. *)
Definition key (x : spec_float) : Z * Z * Z :=
  match x with
  | S754_nan => (3, 0, 0)
  | S754_infinity true => (-2, 0, 0)
  | S754_infinity false => (2, 0, 0)
  | S754_zero _ => (0, 0, 0)
  | S754_finite true m e => (-1, - e, - Zpos m)
  | S754_finite false m e => (1, e, Zpos m)
  end%Z.

Definition lt3 (a b : Z * Z * Z) : Prop :=
  let '(a1, a2, a3) := a in
  let '(b1, b2, b3) := b in
  (a1 < b1 \/ (a1 = b1 /\ (a2 < b2 \/ (a2 = b2 /\ a3 < b3))))%Z.

Definition eq3 (a b : Z * Z * Z) : Prop :=
  let '(a1, a2, a3) := a in
  let '(b1, b2, b3) := b in
  (a1 = b1 /\ a2 = b2 /\ a3 = b3)%Z.

Definition fkey (a : float) : Z * Z * Z := key (Prim2SF a).

End JS.

(* ====================================================================== *)
(** * Trim editor *)
(* ====================================================================== *)

Module Trim.
Import JS.

Local Open Scope float_scope.

(** ** Utilities *)

(** [function clamp(v, min, max)]:
    [Math.round(Math.max(min, Math.min(max, v)) * 10) / 10]. *)
Definition clamp (v min max : float) : float :=
  Math_round (Math_max min (Math_min max v) * 10) / 10.

(** ** Properties handed to [TrimEditor] *)

Record Props := {
  media_id : nat;
  duration_seconds : option float; (* media.duration_seconds, may be null *)
  issue_id : nat;
  start_seconds : float;           (* issue.start_seconds *)
  end_seconds : float              (* issue.end_seconds *)
}.

(** [const total = media.duration_seconds ?? 1]. *)
Definition total (p : Props) : float :=
  match duration_seconds p with Some d => d | None => 1 end.

(** ** Component state *)

Inductive handle := HStart | HEnd.

(** The four [useState] cells, the [dragging] ref of [Timeline], and the
    mutation hook [submitMut].  Of the hook the component sees [isPending] as
    it was at the last render; the hook itself follows the mutation started
    by the last [mutate()] since the last [reset()], and every mutation that
    was started stays in flight until its answer. *)
Record State := {
  start : float;
  end_ : float;
  jobId : option nat;
  confirmed : bool;
  isPending : bool;                (* submitMut.isPending, as rendered *)
  mutation : option nat;           (* the mutation the hook follows *)
  inFlight : list nat;             (* mutations sent and not answered *)
  nextMutation : nat;              (* the id the next mutation gets *)
  dragging : option handle         (* Timeline's dragging.current *)
}.

Definition init (p : Props) : State :=
  {| start := start_seconds p; end_ := end_seconds p; jobId := None;
     confirmed := false; isPending := false; mutation := None;
     inFlight := []; nextMutation := 0; dragging := None |}.

Definition setStart (v : float) (st : State) : State :=
  {| start := v; end_ := end_ st; jobId := jobId st; confirmed := confirmed st;
     isPending := isPending st; mutation := mutation st;
     inFlight := inFlight st; nextMutation := nextMutation st;
     dragging := dragging st |}.

Definition setEnd (v : float) (st : State) : State :=
  {| start := start st; end_ := v; jobId := jobId st; confirmed := confirmed st;
     isPending := isPending st; mutation := mutation st;
     inFlight := inFlight st; nextMutation := nextMutation st;
     dragging := dragging st |}.

Definition setJobId (j : option nat) (st : State) : State :=
  {| start := start st; end_ := end_ st; jobId := j; confirmed := confirmed st;
     isPending := isPending st; mutation := mutation st;
     inFlight := inFlight st; nextMutation := nextMutation st;
     dragging := dragging st |}.

Definition setConfirmed (c : bool) (st : State) : State :=
  {| start := start st; end_ := end_ st; jobId := jobId st; confirmed := c;
     isPending := isPending st; mutation := mutation st;
     inFlight := inFlight st; nextMutation := nextMutation st;
     dragging := dragging st |}.

Definition set_dragging (d : option handle) (st : State) : State :=
  {| start := start st; end_ := end_ st; jobId := jobId st;
     confirmed := confirmed st; isPending := isPending st;
     mutation := mutation st; inFlight := inFlight st;
     nextMutation := nextMutation st; dragging := d |}.

(** Requests the component sends. *)
Inductive request :=
| StartTrim (mediaId : nat) (remove_start remove_end : float) (issueId : nat).

(** ** The mutation hook and rendering *)

(** [isPending] of the hook's current result: the mutation it follows has
    not been answered. *)
Definition observed (st : State) : bool :=
  match mutation st with
  | Some m => existsb (Nat.eqb m) (inFlight st)
  | None => false
  end.

(** A render reads the hook's current result. *)
Definition render (st : State) : State :=
  {| start := start st; end_ := end_ st; jobId := jobId st;
     confirmed := confirmed st; isPending := observed st;
     mutation := mutation st; inFlight := inFlight st;
     nextMutation := nextMutation st; dragging := dragging st |}.

Definition same_option (a b : option nat) : bool :=
  match a, b with
  | Some x, Some y => Nat.eqb x y
  | None, None => true
  | _, _ => false
  end.

(** React renders again after a handler only when a state cell changed. *)
Definition same_cells (st st' : State) : bool :=
  Object_is (start st) (start st') && Object_is (end_ st) (end_ st')
  && same_option (jobId st) (jobId st') && Bool.eqb (confirmed st) (confirmed st').

Definition rerender (st st' : State) : State :=
  if same_cells st st' then st' else render st'.

(** [submitMut.mutate()]: a new mutation is started and followed.  The hook
    tells the component by a notification that is delivered later. *)
Definition mutate (st : State) : State :=
  {| start := start st; end_ := end_ st; jobId := jobId st;
     confirmed := confirmed st; isPending := isPending st;
     mutation := Some (nextMutation st);
     inFlight := nextMutation st :: inFlight st;
     nextMutation := S (nextMutation st); dragging := dragging st |}.

(** [submitMut.reset()]. *)
Definition reset (st : State) : State :=
  {| start := start st; end_ := end_ st; jobId := jobId st;
     confirmed := confirmed st; isPending := isPending st;
     mutation := None; inFlight := inFlight st;
     nextMutation := nextMutation st; dragging := dragging st |}.

(** The answer to mutation [m] has arrived. *)
Definition settle (m : nat) (st : State) : State :=
  {| start := start st; end_ := end_ st; jobId := jobId st;
     confirmed := confirmed st; isPending := isPending st;
     mutation := mutation st;
     inFlight := filter (fun k => negb (Nat.eqb m k)) (inFlight st);
     nextMutation := nextMutation st; dragging := dragging st |}.

(** ** Timeline *)

(** [toSeconds]: [x] is [(clientX - rect.left) / rect.width], the pointer
    position relative to the bar as the browser reports it. *)
Definition toSeconds (p : Props) (x : float) : float :=
  let ratio := Math_max 0 (Math_min 1 x) in
  clamp (ratio * total p) 0 (total p).

(** [handleTimelineChange(s, e)]. *)
Definition handleTimelineChange (s e : float) (st : State) : State :=
  let st1 := setEnd e (setStart s st) in
  if confirmed st then setConfirmed false st1 else st1.

(** [move(t)]: [onChange] is [handleTimelineChange]. *)
Definition move (p : Props) (t : float) (st : State) : State :=
  match dragging st with
  | Some HStart =>
      handleTimelineChange (clamp t 0 (end_ st - 0.5)) (end_ st) st
  | Some HEnd =>
      handleTimelineChange (start st) (clamp t (start st + 0.5) (total p)) st
  | None => st
  end.

(** [handlePointerDown]: picks the closer handle, then moves it. *)
Definition handlePointerDown (p : Props) (x : float) (st : State) : State :=
  let t := toSeconds p x in
  let d := if Math_abs (t - start st) <=? Math_abs (t - end_ st)
           then HStart else HEnd in
  move p t (set_dragging (Some d) st).

Definition handlePointerMove (p : Props) (x : float) (st : State) : State :=
  match dragging st with
  | None => st
  | Some _ => move p (toSeconds p x) st
  end.

Definition handlePointerUp (st : State) : State := set_dragging None st.

(** ** Numeric inputs *)

(** [parseFloat(e.target.value) || 0]: [None] is a field [parseFloat] cannot
    read; NaN and the two zeros are falsy. *)
Definition parsed_or_zero (v : option float) : float :=
  match v with
  | Some q => if is_nan q || is_zero q then 0 else q
  | None => 0
  end.

Definition setStartSafe (v : float) (st : State) : State :=
  setStart (clamp v 0 (end_ st - 0.5)) st.

Definition setEndSafe (p : Props) (v : float) (st : State) : State :=
  setEnd (clamp v (start st + 0.5) (total p)) st.

(** ** Validation and submission *)

(** [isValid = start >= 0 && end <= total + 0.1 && removeDuration >= 0.5]. *)
Definition removeDuration (st : State) : float := end_ st - start st.

Definition isValid (p : Props) (st : State) : bool :=
  (0 <=? start st)
  && (end_ st <=? total p + 0.1)
  && (0.5 <=? removeDuration st).

(** The [disabled] attribute of the confirm button. *)
Definition confirmDisabled (p : Props) (st : State) : bool :=
  negb (isValid p st) || isPending st.

(** [handleConfirm]; [submitMut.mutate()] sends the request built from the
    [start] and [end] of the render the click happened in. *)
Definition handleConfirm (p : Props) (st : State) : State * list request :=
  if negb (confirmed st) then (setConfirmed true st, [])
  else (mutate st,
        [StartTrim (media_id p) (start st) (end_ st) (issue_id p)]).

(** [submitMut.onSuccess]: [setJobId(job.id)]. *)
Definition onSubmitSuccess (m job_id : nat) (st : State) : State :=
  setJobId (Some job_id) (settle m st).

(** There is no [onError]. *)
Definition onSubmitError (m : nat) (st : State) : State := settle m st.

(** [handleRetry]. *)
Definition handleRetry (st : State) : State :=
  reset (setConfirmed false (setJobId None st)).

(** ** Events

    The timeline, the two inputs and the confirm button are rendered only
    while [jobId] is null; the retry button only on the overlay.  A disabled
    button does not deliver clicks.  [Notify] is the hook's notification
    reaching the component, which renders again. *)

Inductive event :=
| PointerDown (x : float)
| PointerMove (x : float)
| PointerUp
| InputStart (v : option float)
| InputEnd (v : option float)
| ClickConfirm
| SubmitSucceeded (m job_id : nat)
| SubmitFailed (m : nat)
| Notify
| ClickRetry.

Definition isProcessing (st : State) : bool :=
  match jobId st with Some _ => true | None => false end.

Definition step (p : Props) (st : State) (e : event) : State * list request :=
  match e with
  | PointerDown x =>
      if isProcessing st then (st, [])
      else (rerender st (handlePointerDown p x st), [])
  | PointerMove x =>
      if isProcessing st then (st, [])
      else (rerender st (handlePointerMove p x st), [])
  | PointerUp =>
      if isProcessing st then (st, []) else (handlePointerUp st, [])
  | InputStart v =>
      if isProcessing st then (st, [])
      else (rerender st (setStartSafe (parsed_or_zero v) st), [])
  | InputEnd v =>
      if isProcessing st then (st, [])
      else (rerender st (setEndSafe p (parsed_or_zero v) st), [])
  | ClickConfirm =>
      if isProcessing st || confirmDisabled p st then (st, [])
      else (rerender st (fst (handleConfirm p st)), snd (handleConfirm p st))
  | SubmitSucceeded m j =>
      if existsb (Nat.eqb m) (inFlight st)
      then (rerender st (onSubmitSuccess m j st), [])
      else (st, [])
  | SubmitFailed m =>
      if existsb (Nat.eqb m) (inFlight st)
      then (rerender st (onSubmitError m st), [])
      else (st, [])
  | Notify => (render st, [])
  | ClickRetry =>
      if isProcessing st then (rerender st (handleRetry st), []) else (st, [])
  end.

(** Running a list of events, collecting the requests sent. *)
Fixpoint run (p : Props) (st : State) (es : list event) : State * list request :=
  match es with
  | [] => (st, [])
  | e :: es' =>
      let '(st1, r1) := step p st e in
      let '(st2, r2) := run p st1 es' in
      (st2, r1 ++ r2)
  end.




(** Rounding to one decimal, the last step of [clamp]. *)
Definition round10 (x : float) : float := Math_round (x * 10) / 10.

(** "Clamped to [lo, hi]" as the specification uses the words: the target
    cut off at the bounds. *)
Definition clamped (lo hi v : float) : float :=
  if v <? lo then lo else if hi <? v then hi else v.

(** [y] is the target [v] cut off at [lo, hi] and then rounded to one
    decimal. *)
Definition rounded_into (lo hi v y : float) : Prop :=
  exists x, y = round10 x /\
            (lo <=? x) = true /\ (x <=? hi) = true /\
            (x =? clamped lo hi v) = true.


(** ** Concrete sessions *)

(** The scenario of the specification: a two-minute file, issue 10 s - 15 s. *)
Definition scenario : Props :=
  {| media_id := 1; duration_seconds := Some 120; issue_id := 1;
     start_seconds := 10; end_seconds := 15 |}.

(** The same file with a detection that ends at 15.27 s. *)
Definition offgrid : Props :=
  {| media_id := 1; duration_seconds := Some 120; issue_id := 1;
     start_seconds := 10; end_seconds := 15.27 |}.


(** Grabbing the start handle of [offgrid] and dragging it to the right end
    of the bar. *)
Definition offgrid_dragged : State :=
  fst (run offgrid (init offgrid) [PointerDown (10 / 120); PointerMove 1]).




(** The confirmation gate on [scenario]: one activation; one activation
    and a drag of the start handle; one activation and 12 typed into "Remove
    from"; the same followed by a second activation. *)
Definition confirm_once : State * list request :=
  run scenario (init scenario) [ClickConfirm].

Definition confirm_dragged : State * list request :=
  run scenario (init scenario)
      [ClickConfirm; PointerDown (10 / 120); PointerMove (12 / 120)].

Definition confirm_typed : State * list request :=
  run scenario (init scenario) [ClickConfirm; InputStart (Some 12)].

Definition confirm_typed_confirm : State * list request :=
  run scenario (init scenario)
      [ClickConfirm; InputStart (Some 12); ClickConfirm].



Definition confirm_twice_notified : State * list request :=
  run scenario (init scenario) [ClickConfirm; ClickConfirm; Notify].

(** The drags of the scenario: the end handle is grabbed where it is and
    moved to 9.7 s; then the start handle is grabbed and moved to 11 s. *)
Definition scenario_end_dragged : State * list request :=
  run scenario (init scenario)
      [PointerDown (15 / 120); PointerMove (9.7 / 120)].

Definition scenario_start_dragged : State * list request :=
  run scenario (fst scenario_end_dragged)
      [PointerUp; PointerDown (10 / 120); PointerMove (11 / 120)].

(** The selection 1.7 s - 2.3 s, whose middle is 2 s. *)
Definition midpoint_tie : State :=
  setEnd 2.3 (setStart 1.7 (init scenario)).


(** The two-minute file with a detection that ends at 120.1 s, and one that
    ends at 120.2 s. *)
Definition past_duration : Props :=
  {| media_id := 1; duration_seconds := Some 120; issue_id := 1;
     start_seconds := 10; end_seconds := 120.1 |}.

Definition far_past_duration : Props :=
  {| media_id := 1; duration_seconds := Some 120; issue_id := 1;
     start_seconds := 10; end_seconds := 120.2 |}.

(** ** The job overlay and the controls of the dialog *)

Inductive TrimJobStatus := TPending | TRunning | TCompleted | TFailed.

(** [refetchInterval] of the trim-job query; [s] is
    [query.state.data?.status], [None] while there is no data. *)
Definition refetchInterval (s : option TrimJobStatus) : option nat :=
  match s with
  | Some TCompleted | Some TFailed => None
  | _ => Some 1500%nat
  end.

(** The controls of the dialog whose handler does something. *)
Inductive control :=
| Backdrop | HeaderClose
| OverlayDone | OverlayCancel | OverlayRetry
| TimelineBar | InputFrom | InputUntil | EditorCancel | EditorConfirm.

(** The buttons of [ProcessingOverlay]. *)
Definition ProcessingOverlay (s : TrimJobStatus) : list control :=
  match s with
  | TCompleted => [OverlayDone]
  | TFailed => [OverlayCancel; OverlayRetry]
  | _ => []
  end.

(** What [TrimEditor] renders; [trimJob] is the data of the trim-job query.
    The backdrop closes the dialog only while no job is being processed, the
    header button is rendered only then. *)
Definition controls (p : Props) (st : State) (trimJob : option TrimJobStatus)
  : list control :=
  if isProcessing st then
    match trimJob with
    | Some s => ProcessingOverlay s
    | None => []
    end
  else
    [Backdrop; HeaderClose; TimelineBar; InputFrom; InputUntil; EditorCancel]
    ++ (if confirmDisabled p st then [] else [EditorConfirm]).

(** The controls that call [onClose]. *)
Definition calls_onClose (c : control) : bool :=
  match c with
  | Backdrop | HeaderClose | OverlayDone | OverlayCancel | EditorCancel => true
  | _ => false
  end.

(** An answer to a submission, or a retry. *)
Definition is_response (e : event) : bool :=
  match e with
  | SubmitSucceeded _ _ | SubmitFailed _ | ClickRetry => true
  | _ => false
  end.

End Trim.

(* ====================================================================== *)
(** * Scan toast *)
(* ====================================================================== *)

Module Toast.

Local Open Scope nat_scope.
Local Open Scope string_scope.
Local Open Scope list_scope.

(** [ScanJob], with the fields the toast reads. *)
Inductive JobStatus := Pending | Running | Completed | Failed | Cancelled.

Record ScanJob := {
  id : nat;
  status : JobStatus;
  total_files : nat;
  processed_files : nat;
  issues_found : nat;
  error_message : option string
}.

Inductive ToastPhase := hidden | running | completed | failed.

(** A handle returned by [setTimeout]: a non-zero integer. *)
Definition timer := positive.

Record State := {
  phase : ToastPhase;
  snap : option ScanJob;
  dismissTimer : option timer;    (* dismissTimer.current *)
  wasRunning : bool               (* wasRunning.current *)
}.

Definition init : State :=
  {| phase := hidden; snap := None; dismissTimer := None; wasRunning := false |}.

Inductive action :=
| GetJob (job_id : nat)
| CancelJob (job_id : nat)
| SetTimeout (t : timer) (ms : nat)
| ClearTimeout (t : timer)
| InvalidateQueries (key : string).

Definition setPhase (ph : ToastPhase) (st : State) : State :=
  {| phase := ph; snap := snap st; dismissTimer := dismissTimer st;
     wasRunning := wasRunning st |}.

(** ** Effects and handlers *)

(** The effect on [activeJobs], for a defined value of the query. *)
Definition onActiveJobs (activeJobs : list ScanJob) (st : State)
  : State * list action :=
  match activeJobs with
  | job :: _ =>
      ({| phase := running; snap := Some job; dismissTimer := None;
          wasRunning := true |},
       match dismissTimer st with
       | Some t => [ClearTimeout t]
       | None => []
       end)
  | [] =>
      match wasRunning st, snap st with
      | true, Some s =>
          ({| phase := phase st; snap := snap st;
              dismissTimer := dismissTimer st; wasRunning := false |},
           [GetJob (id s)])
      | _, _ => (st, [])
      end
  end.

(** The mount-only effect that seeds the toast from a cached value. *)
Definition onMount (activeJobs : option (list ScanJob)) (st : State) : State :=
  match activeJobs with
  | Some (job :: _) =>
      {| phase := running; snap := Some job;
         dismissTimer := dismissTimer st; wasRunning := true |}
  | _ => st
  end.

(** [api.getJob(snap.id).then(...)]: [h] is the handle [setTimeout]
    returns when the job completed. *)
Definition onGetJobResolved (h : timer) (finalJob : ScanJob) (st : State)
  : State * list action :=
  match status finalJob with
  | Completed =>
      ({| phase := completed; snap := Some finalJob;
          dismissTimer := Some h; wasRunning := wasRunning st |},
       [InvalidateQueries "stats"; InvalidateQueries "media-list";
        InvalidateQueries "media"; SetTimeout h 5000])
  | Failed =>
      ({| phase := failed; snap := Some finalJob;
          dismissTimer := dismissTimer st; wasRunning := wasRunning st |}, [])
  | _ =>
      ({| phase := hidden; snap := Some finalJob;
          dismissTimer := dismissTimer st; wasRunning := wasRunning st |}, [])
  end.

(** [.catch(() => setPhase("hidden"))]. *)
Definition onGetJobRejected (st : State) : State * list action :=
  (setPhase hidden st, []).

(** The timer callback [() => setPhase("hidden")]. *)
Definition onDismissTimeout (st : State) : State * list action :=
  (setPhase hidden st, []).

(** [dismiss]. *)
Definition dismiss (st : State) : State * list action :=
  (setPhase hidden st,
   match dismissTimer st with
   | Some t => [ClearTimeout t]
   | None => []
   end).

(** [cancelMut]: the button is rendered only when [snap] is set. *)
Definition cancelMut_mutate (st : State) : State * list action :=
  (st, match snap st with Some s => [CancelJob (id s)] | None => [] end).

Definition cancelMut_onSuccess (st : State) : State * list action :=
  (setPhase hidden st, [InvalidateQueries "active-jobs"]).

(** ** Rendering *)

(** [if (phase === "hidden" || !snap) return null]. *)
Definition visible (st : State) : bool :=
  match phase st, snap st with
  | hidden, _ => false
  | _, None => false
  | _, Some _ => true
  end.

(** The error line, rendered in the failed phase only. *)
Definition shown_error (st : State) : option string :=
  match phase st, snap st with
  | failed, Some s =>
      Some (match error_message s with
            | Some m => m
            | None => "An unknown error occurred"
            end)
  | _, _ => None
  end.

(** ** Scheduler *)

Record World := {
  comp : State;
  timers : list timer;       (* armed timeouts *)
  fetches : list nat;        (* [getJob] requests in flight, by job id *)
  cancelling : bool;         (* cancelMut.isPending *)
  next_timer : timer;        (* the handle the next [setTimeout] returns *)
  log : list action          (* everything done so far, oldest first *)
}.

Definition with_comp (st : State) (w : World) : World :=
  {| comp := st; timers := timers w; fetches := fetches w;
     cancelling := cancelling w; next_timer := next_timer w; log := log w |}.

Definition perform (w : World) (a : action) : World :=
  match a with
  | GetJob i =>
      {| comp := comp w; timers := timers w; fetches := fetches w ++ [i];
         cancelling := cancelling w; next_timer := next_timer w;
         log := log w ++ [a] |}
  | CancelJob _ =>
      {| comp := comp w; timers := timers w; fetches := fetches w;
         cancelling := true; next_timer := next_timer w;
         log := log w ++ [a] |}
  | SetTimeout t _ =>
      {| comp := comp w; timers := timers w ++ [t]; fetches := fetches w;
         cancelling := cancelling w; next_timer := Pos.succ (next_timer w);
         log := log w ++ [a] |}
  | ClearTimeout t =>
      {| comp := comp w; timers := remove Pos.eq_dec t (timers w);
         fetches := fetches w; cancelling := cancelling w;
         next_timer := next_timer w; log := log w ++ [a] |}
  | InvalidateQueries _ =>
      {| comp := comp w; timers := timers w; fetches := fetches w;
         cancelling := cancelling w; next_timer := next_timer w;
         log := log w ++ [a] |}
  end.

(** Store the new component state and carry out what the handler did. *)
Definition commit (w : World) (r : State * list action) : World :=
  fold_left perform (snd r) (with_comp (fst r) w).

Fixpoint remove_one (i : nat) (l : list nat) : list nat :=
  match l with
  | [] => []
  | x :: l' => if Nat.eqb i x then l' else x :: remove_one i l'
  end.

Definition settle_fetch (i : nat) (w : World) : World :=
  {| comp := comp w; timers := timers w; fetches := remove_one i (fetches w);
     cancelling := cancelling w; next_timer := next_timer w; log := log w |}.

Definition settle_timer (t : timer) (w : World) : World :=
  {| comp := comp w; timers := remove Pos.eq_dec t (timers w);
     fetches := fetches w; cancelling := cancelling w;
     next_timer := next_timer w; log := log w |}.

Definition settle_cancel (w : World) : World :=
  {| comp := comp w; timers := timers w; fetches := fetches w;
     cancelling := false; next_timer := next_timer w; log := log w |}.

Inductive event :=
| ActiveJobs (jobs : list ScanJob)   (* a new value of the active-jobs query *)
| GetJobResolved (job_id : nat) (finalJob : ScanJob)
| GetJobRejected (job_id : nat)
| Timeout (t : timer)
| ClickDismiss
| ClickCancel
| CancelSucceeded
| CancelFailed.

Definition in_flight (i : nat) (w : World) : bool :=
  existsb (Nat.eqb i) (fetches w).

Definition armed (t : timer) (w : World) : bool :=
  existsb (Pos.eqb t) (timers w).

Definition step (w : World) (e : event) : option World :=
  match e with
  | ActiveJobs jobs => Some (commit w (onActiveJobs jobs (comp w)))
  | GetJobResolved i finalJob =>
      if in_flight i w
      then Some (commit (settle_fetch i w)
                        (onGetJobResolved (next_timer w) finalJob (comp w)))
      else None
  | GetJobRejected i =>
      if in_flight i w
      then Some (commit (settle_fetch i w) (onGetJobRejected (comp w)))
      else None
  | Timeout t =>
      if armed t w
      then Some (commit (settle_timer t w) (onDismissTimeout (comp w)))
      else None
  | ClickDismiss =>
      match visible (comp w), phase (comp w) with
      | true, completed | true, failed => Some (commit w (dismiss (comp w)))
      | _, _ => None
      end
  | ClickCancel =>
      match visible (comp w), phase (comp w), cancelling w with
      | true, running, false => Some (commit w (cancelMut_mutate (comp w)))
      | _, _, _ => None
      end
  | CancelSucceeded =>
      if cancelling w
      then Some (commit (settle_cancel w) (cancelMut_onSuccess (comp w)))
      else None
  | CancelFailed =>
      if cancelling w then Some (settle_cancel w) else None
  end.

Fixpoint run (w : World) (es : list event) : option World :=
  match es with
  | [] => Some w
  | e :: es' =>
      match step w e with
      | Some w' => run w' es'
      | None => None
      end
  end.

(** The component right after mounting; [cached] is the value of the
    active-jobs query at that time, if there is one.  Both effects run. *)
Definition mount (cached : option (list ScanJob)) : World :=
  let w0 := {| comp := init; timers := []; fetches := []; cancelling := false;
               next_timer := 1%positive; log := [] |} in
  match cached with
  | Some jobs =>
      let w1 := commit w0 (onActiveJobs jobs init) in
      with_comp (onMount cached (comp w1)) w1
  | None => w0
  end.

(** ** The feed as the effect sees it *)







(** A final status "completed" arriving. *)
Definition is_completion (e : event) : bool :=
  match e with
  | GetJobResolved _ j =>
      match status j with Completed => true | _ => false end
  | _ => false
  end.




(** ** Concrete runs *)

Definition job (i : nat) (s : JobStatus) (done found : nat) : ScanJob :=
  {| id := i; status := s; total_files := 10; processed_files := done;
     issues_found := found; error_message := None |}.

(** The scenario of the specification: job 1 runs, leaves the active queue
    and is reported completed with three issues. *)
Definition scan_scenario : list event :=
  [ActiveJobs [job 1 Running 5 2]; ActiveJobs [];
   GetJobResolved 1 (job 1 Completed 10 3)].



(** Job 1 leaves the active queue and the follow-up fetch fails. *)
Definition rejected_fetch : list event :=
  [ActiveJobs [job 1 Running 5 2]; ActiveJobs []; GetJobRejected 1].


(** The world after a trace from a fresh mount (the mounted world itself
    when the trace cannot happen). *)
Definition after (es : list event) : World :=
  match run (mount None) es with
  | Some w => w
  | None => mount None
  end.

(** ** Cache invalidation *)

(** The query keys a list of actions invalidates. *)
Fixpoint invalidated (acts : list action) : list string :=
  match acts with
  | [] => []
  | InvalidateQueries k :: acts' => k :: invalidated acts'
  | _ :: acts' => invalidated acts'
  end.

(** What an event invalidates. *)
Definition invalidates (e : event) : list string :=
  if is_completion e then ["stats"; "media-list"; "media"]
  else match e with
       | CancelSucceeded => ["active-jobs"]
       | _ => []
       end.

(** A feed value with an active job. *)
Definition is_active_feed (e : event) : bool :=
  match e with
  | ActiveJobs (_ :: _) => true
  | _ => false
  end.

End Toast.

(* ====================================================================== *)
(** * Plex connection flow *)
(* ====================================================================== *)

Module Plex.

Local Open Scope nat_scope.
Local Open Scope string_scope.
Local Open Scope list_scope.

Inductive Phase :=
| loading | idle | starting | awaiting_auth | picking_server | connecting
| picking_libraries | connected.

Record PlexServer := {
  name : string;
  machine_id : string;
  owned : bool;
  best_url : string
}.

Record PlexPinResponse := {
  pin_id : nat;
  pin_code : string;
  auth_url : string
}.

(** A handle returned by [setInterval]: a non-zero integer. *)
Definition interval := positive.

Record State := {
  phase : Phase;
  pinCode : string;
  authUrl : string;
  servers : list PlexServer;
  error : option string;
  pollRef : option interval       (* pollRef.current *)
}.

Definition init : State :=
  {| phase := loading; pinCode := ""; authUrl := ""; servers := [];
     error := None; pollRef := None |}.

Inductive action :=
| PlexAuthStart
| PlexAuthPoll (pinId : nat)
| PlexServers
| PlexSelectServer (server_name server_machine_id server_url : string)
| PlexSaveLibraries (keys : list string)
| PlexSync
| PlexDisconnect
| SetInterval (h : interval) (pinId : nat) (ms : nat)
| ClearInterval (h : interval)
| InvalidateQueries (key : string)
| OnConnected.

Definition setPhase (ph : Phase) (st : State) : State :=
  {| phase := ph; pinCode := pinCode st; authUrl := authUrl st;
     servers := servers st; error := error st; pollRef := pollRef st |}.

Definition setError (e : option string) (st : State) : State :=
  {| phase := phase st; pinCode := pinCode st; authUrl := authUrl st;
     servers := servers st; error := e; pollRef := pollRef st |}.

Definition setPollRef (r : option interval) (st : State) : State :=
  {| phase := phase st; pinCode := pinCode st; authUrl := authUrl st;
     servers := servers st; error := error st; pollRef := r |}.

(** ** Effects and handlers *)

(** The effect on [status]: the phase is derived from it only while
    loading. *)
Definition onStatus (is_connected : bool) (st : State) : State * list action :=
  match phase st with
  | loading => (setPhase (if is_connected then connected else idle) st, [])
  | _ => (st, [])
  end.

Definition stopPolling (st : State) : State * list action :=
  match pollRef st with
  | Some h => (setPollRef None st, [ClearInterval h])
  | None => (st, [])
  end.

(** [startPolling(id)]; [h] is the handle [setInterval] returns. *)
Definition startPolling (h : interval) (id : nat) (st : State)
  : State * list action :=
  let '(st1, a1) := stopPolling st in
  (setPollRef (Some h) st1, a1 ++ [SetInterval h id 2000]).

(** The interval callback, up to its first [await]. *)
Definition pollTick (id : nat) (st : State) : State * list action :=
  (st, [PlexAuthPoll id]).

(** The callback after [await api.plexAuthPoll(id)]; [None] is a rejected
    request, which the [catch] swallows. *)
Definition pollAnswered (res : option bool) (st : State) : State * list action :=
  match res with
  | Some true =>
      let '(st1, a1) := stopPolling st in
      (setPhase picking_server st1, a1 ++ [PlexServers])
  | _ => (st, [])
  end.

(** The callback after [await api.plexServers()]. *)
Definition serversAnswered (res : option (list PlexServer)) (st : State)
  : State * list action :=
  match res with
  | Some srvList =>
      ({| phase := phase st; pinCode := pinCode st; authUrl := authUrl st;
          servers := srvList; error := error st; pollRef := pollRef st |},
       [InvalidateQueries "plex-status"])
  | None => (st, [])
  end.

(** [startAuthMut]. *)
Definition startAuthMut_mutate (st : State) : State * list action :=
  (setError None (setPhase starting st), [PlexAuthStart]).

Definition startAuthMut_onSuccess (h : interval) (data : PlexPinResponse)
           (st : State) : State * list action :=
  startPolling h (pin_id data)
    {| phase := awaiting_auth; pinCode := pin_code data;
       authUrl := auth_url data; servers := servers st; error := error st;
       pollRef := pollRef st |}.

Definition startAuthMut_onError (message : string) (st : State)
  : State * list action :=
  (setPhase idle (setError (Some message) st), []).

(** [selectServerMut]. *)
Definition selectServerMut_mutate (s : PlexServer) (st : State)
  : State * list action :=
  (setError None (setPhase connecting st),
   [PlexSelectServer (name s) (machine_id s) (best_url s)]).

Definition selectServerMut_onSuccess (st : State) : State * list action :=
  (setPhase picking_libraries st, [InvalidateQueries "plex-status"]).

Definition selectServerMut_onError (message : string) (st : State)
  : State * list action :=
  (setPhase picking_server (setError (Some message) st), []).

(** [disconnectMut]. *)
Definition disconnectMut_mutate (st : State) : State * list action :=
  (st, [PlexDisconnect]).

Definition disconnectMut_onSuccess (st : State) : State * list action :=
  (setError None (setPhase idle st),
   [InvalidateQueries "plex-status"; InvalidateQueries "stats";
    InvalidateQueries "media-list"]).

(** [saveLibrariesMut]. *)
Definition saveLibrariesMut_mutate (keys : list string) (st : State)
  : State * list action :=
  (st, [PlexSaveLibraries keys]).

Definition saveLibrariesMut_onSuccess (st : State) : State * list action :=
  (setPhase connected st,
   [InvalidateQueries "plex-status"; PlexSync; OnConnected]).

Definition saveLibrariesMut_onError (message : string) (st : State)
  : State * list action :=
  (setError (Some message) st, []).

(** [cancel]. *)
Definition cancel (st : State) : State * list action :=
  let '(st1, a1) := stopPolling st in
  ({| phase := idle; pinCode := ""; authUrl := authUrl st1;
      servers := servers st1; error := None; pollRef := pollRef st1 |}, a1).

(** [onChangeLibraries]. *)
Definition onChangeLibraries (st : State) : State * list action :=
  (setPhase picking_libraries st, []).

(** ** Rendering *)

(** The error banner, [{error && ...}]: an empty message renders nothing. *)
Definition banner (st : State) : option string :=
  match phase st, error st with
  | loading, _ => None
  | _, Some m => if String.eqb m "" then None else Some m
  | _, None => None
  end.

(** ** Scheduler *)

Record World := {
  comp : State;
  intervals : list (interval * nat);  (* armed intervals and their PIN id *)
  polls : list nat;                   (* poll requests in flight, by PIN id *)
  auth_pending : nat;                 (* start-auth requests in flight *)
  servers_pending : nat;              (* server-list requests in flight *)
  select_pending : nat;
  save_pending : nat;
  disconnect_pending : nat;
  next_interval : interval;
  log : list action                   (* everything done so far, oldest first *)
}.

Definition with_comp (st : State) (w : World) : World :=
  {| comp := st; intervals := intervals w; polls := polls w;
     auth_pending := auth_pending w; servers_pending := servers_pending w;
     select_pending := select_pending w; save_pending := save_pending w;
     disconnect_pending := disconnect_pending w;
     next_interval := next_interval w; log := log w |}.

Definition other_handle (h : interval) (x : interval * nat) : bool :=
  negb (Pos.eqb h (fst x)).

Definition perform (w : World) (a : action) : World :=
  {| comp := comp w;
     intervals :=
       match a with
       | SetInterval h id _ => intervals w ++ [(h, id)]
       | ClearInterval h => filter (other_handle h) (intervals w)
       | _ => intervals w
       end;
     polls := match a with PlexAuthPoll id => polls w ++ [id] | _ => polls w end;
     auth_pending :=
       match a with PlexAuthStart => S (auth_pending w) | _ => auth_pending w end;
     servers_pending :=
       match a with PlexServers => S (servers_pending w) | _ => servers_pending w end;
     select_pending :=
       match a with
       | PlexSelectServer _ _ _ => S (select_pending w)
       | _ => select_pending w
       end;
     save_pending :=
       match a with PlexSaveLibraries _ => S (save_pending w) | _ => save_pending w end;
     disconnect_pending :=
       match a with
       | PlexDisconnect => S (disconnect_pending w)
       | _ => disconnect_pending w
       end;
     next_interval :=
       match a with
       | SetInterval _ _ _ => Pos.succ (next_interval w)
       | _ => next_interval w
       end;
     log := log w ++ [a] |}.

Definition commit (w : World) (r : State * list action) : World :=
  fold_left perform (snd r) (with_comp (fst r) w).

Fixpoint remove_one (i : nat) (l : list nat) : list nat :=
  match l with
  | [] => []
  | x :: l' => if Nat.eqb i x then l' else x :: remove_one i l'
  end.

Inductive request_kind := KPoll (id : nat) | KAuth | KServers | KSelect | KSave | KDisconnect.

Definition in_flight (k : request_kind) (w : World) : bool :=
  match k with
  | KPoll id => existsb (Nat.eqb id) (polls w)
  | KAuth => negb (Nat.eqb (auth_pending w) 0)
  | KServers => negb (Nat.eqb (servers_pending w) 0)
  | KSelect => negb (Nat.eqb (select_pending w) 0)
  | KSave => negb (Nat.eqb (save_pending w) 0)
  | KDisconnect => negb (Nat.eqb (disconnect_pending w) 0)
  end.

(** The request has been answered. *)
Definition settle (k : request_kind) (w : World) : World :=
  {| comp := comp w; intervals := intervals w;
     polls := match k with KPoll id => remove_one id (polls w) | _ => polls w end;
     auth_pending :=
       match k with KAuth => pred (auth_pending w) | _ => auth_pending w end;
     servers_pending :=
       match k with KServers => pred (servers_pending w) | _ => servers_pending w end;
     select_pending :=
       match k with KSelect => pred (select_pending w) | _ => select_pending w end;
     save_pending :=
       match k with KSave => pred (save_pending w) | _ => save_pending w end;
     disconnect_pending :=
       match k with
       | KDisconnect => pred (disconnect_pending w)
       | _ => disconnect_pending w
       end;
     next_interval := next_interval w; log := log w |}.

Inductive event :=
| StatusLoaded (is_connected : bool)
| ClickConnect
| AuthStartOk (data : PlexPinResponse)
| AuthStartErr (message : string)
| Tick (h : interval)
| PollAnswered (id : nat) (res : option bool)
| ServersAnswered (res : option (list PlexServer))
| ClickCancel
| ClickSelect (s : PlexServer)
| SelectOk
| SelectErr (message : string)
| ClickSaveLibraries (keys : list string)
| SaveOk
| SaveErr (message : string)
| ClickChangeLibraries
| ClickDisconnect
| DisconnectOk.

(** The PIN id an armed interval polls for. *)
Fixpoint polled (h : interval) (l : list (interval * nat)) : option nat :=
  match l with
  | [] => None
  | (h', id) :: l' => if Pos.eqb h h' then Some id else polled h l'
  end.

Definition server_eqb (a b : PlexServer) : bool :=
  String.eqb (machine_id a) (machine_id b).

Definition step (w : World) (e : event) : option World :=
  let st := comp w in
  match e with
  | StatusLoaded c => Some (commit w (onStatus c st))
  | ClickConnect =>
      match phase st with
      | idle => Some (commit w (startAuthMut_mutate st))
      | _ => None
      end
  | AuthStartOk data =>
      if in_flight KAuth w
      then Some (commit (settle KAuth w)
                        (startAuthMut_onSuccess (next_interval w) data st))
      else None
  | AuthStartErr m =>
      if in_flight KAuth w
      then Some (commit (settle KAuth w) (startAuthMut_onError m st))
      else None
  | Tick h =>
      match polled h (intervals w) with
      | Some id => Some (commit w (pollTick id st))
      | None => None
      end
  | PollAnswered id res =>
      if in_flight (KPoll id) w
      then Some (commit (settle (KPoll id) w) (pollAnswered res st))
      else None
  | ServersAnswered res =>
      if in_flight KServers w
      then Some (commit (settle KServers w) (serversAnswered res st))
      else None
  | ClickCancel =>
      match phase st with
      | awaiting_auth | picking_server => Some (commit w (cancel st))
      | _ => None
      end
  | ClickSelect s =>
      match phase st with
      | picking_server =>
          if existsb (server_eqb s) (servers st)
          then Some (commit w (selectServerMut_mutate s st))
          else None
      | _ => None
      end
  | SelectOk =>
      if in_flight KSelect w
      then Some (commit (settle KSelect w) (selectServerMut_onSuccess st))
      else None
  | SelectErr m =>
      if in_flight KSelect w
      then Some (commit (settle KSelect w) (selectServerMut_onError m st))
      else None
  | ClickSaveLibraries keys =>
      match phase st, keys, in_flight KSave w with
      | picking_libraries, _ :: _, false =>
          Some (commit w (saveLibrariesMut_mutate keys st))
      | _, _, _ => None
      end
  | SaveOk =>
      if in_flight KSave w
      then Some (commit (settle KSave w) (saveLibrariesMut_onSuccess st))
      else None
  | SaveErr m =>
      if in_flight KSave w
      then Some (commit (settle KSave w) (saveLibrariesMut_onError m st))
      else None
  | ClickChangeLibraries =>
      match phase st with
      | connected => Some (commit w (onChangeLibraries st))
      | _ => None
      end
  | ClickDisconnect =>
      match phase st with
      | connected => Some (commit w (disconnectMut_mutate st))
      | _ => None
      end
  | DisconnectOk =>
      if in_flight KDisconnect w
      then Some (commit (settle KDisconnect w) (disconnectMut_onSuccess st))
      else None
  end.

Fixpoint run (w : World) (es : list event) : option World :=
  match es with
  | [] => Some w
  | e :: es' =>
      match step w e with
      | Some w' => run w' es'
      | None => None
      end
  end.

Definition mount : World :=
  {| comp := init; intervals := []; polls := []; auth_pending := 0;
     servers_pending := 0; select_pending := 0; save_pending := 0;
     disconnect_pending := 0; next_interval := 1%positive; log := [] |}.

(** ** Counting *)

Definition is_PlexAuthPoll (a : action) : bool :=
  match a with PlexAuthPoll _ => true | _ => false end.

Definition is_PlexServers (a : action) : bool :=
  match a with PlexServers => true | _ => false end.

Definition count (f : action -> bool) (l : list action) : nat :=
  List.length (filter f l).


(** A start-auth request succeeding: the only thing that arms an interval. *)
Definition is_AuthStartOk (e : event) : bool :=
  match e with AuthStartOk _ => true | _ => false end.

(** A poll response that reports authorized. *)
Definition is_authorized (e : event) : bool :=
  match e with PollAnswered _ (Some true) => true | _ => false end.

(** Every armed interval is the one recorded in [pollRef]. *)
Definition intervals_recorded (w : World) : Prop :=
  forall x, In x (intervals w) -> pollRef (comp w) = Some (fst x).

(** One poll per tick, each answered before the next tick; [rs] are the
    answers. *)
Definition answered_in_turn (h : interval) (id : nat) (rs : list (option bool))
  : list event :=
  flat_map (fun r => [Tick h; PollAnswered id r]) rs.

Definition not_authorized (r : option bool) : bool :=
  match r with Some true => false | _ => true end.

(** ** Concrete runs *)

Definition pin : PlexPinResponse :=
  {| pin_id := 7; pin_code := "ABCD"; auth_url := "https://plex.tv/link" |}.

(** Up to the authorization screen. *)
Definition to_awaiting_auth : list event :=
  [StatusLoaded false; ClickConnect; AuthStartOk pin].

(** The scenario of the specification: two polls say no, the third yes. *)
Definition auth_scenario : list event :=
  to_awaiting_auth ++
  answered_in_turn 1%positive 7 [Some false; Some false; Some true].


(** Two polls are in flight when the user authorizes; both say so. *)
Definition overlapping_polls : list event :=
  to_awaiting_auth ++
  [Tick 1%positive; Tick 1%positive;
   PollAnswered 7 (Some true); PollAnswered 7 (Some true)].

(** The start-auth request fails. *)
Definition auth_start_fails : list event :=
  [StatusLoaded false; ClickConnect; AuthStartErr "502 Bad Gateway: "].

Definition home_server : PlexServer :=
  {| name := "home"; machine_id := "abc"; owned := true;
     best_url := "http://10.0.0.2:32400" |}.

(** The select-server request fails. *)
Definition select_fails : list event :=
  auth_scenario ++
  [ServersAnswered (Some [home_server]); ClickSelect home_server;
   SelectErr "502 Bad Gateway: "].

(** The world after a trace from a fresh mount (the mounted world itself
    when the trace cannot happen). *)
Definition after (es : list event) : World :=
  match run mount es with
  | Some w => w
  | None => mount
  end.


(** ** Library picker *)

Record PlexLibrary := {
  key : string;
  title : string;
  type : string;
  selected : bool
}.

(** A JavaScript [Set] of strings: its elements in insertion order. *)
Definition has (k : string) (s : list string) : bool :=
  existsb (String.eqb k) s.

Definition add (k : string) (s : list string) : list string :=
  if has k s then s else s ++ [k].

Definition delete (k : string) (s : list string) : list string :=
  filter (fun x => negb (String.eqb k x)) s.

(** [new Set(array)]. *)
Definition newSet (l : list string) : list string :=
  fold_left (fun s k => add k s) l [].

Definition wanted_type (l : PlexLibrary) : bool :=
  String.eqb (type l) "movie" || String.eqb (type l) "show".

(** The selection once [libs] has loaded: the saved one if there is one,
    else the movie and show libraries. *)
Definition initialSelection (libs : list PlexLibrary) : list string :=
  let defaultKeys := map key (filter wanted_type libs) in
  newSet (if existsb selected libs
          then map key (filter selected libs)
          else defaultKeys).

(** [toggle(key)]. *)
Definition toggle (k : string) (s : list string) : list string :=
  if has k s then delete k s else add k s.

(** The [disabled] attribute of "Save & Sync". *)
Definition saveDisabled (s : list string) (loading : bool) : bool :=
  Nat.eqb (List.length s) 0 || loading.

End Plex.

(* ====================================================================== *)
(** * Ordering of JavaScript numbers *)
(* ====================================================================== *)

Module JSSpec.
Import JS.
Local Open Scope float_scope.
Local Unset Implicit Arguments.

(** The comparison of the IEEE specification is the lexicographic order of
    the keys. *)
Lemma SFcompare_key (x y : spec_float) :
  x <> S754_nan -> y <> S754_nan ->
  match SFcompare x y with
  | Some Lt => lt3 (key x) (key y)
  | Some Eq => eq3 (key x) (key y)
  | Some Gt => lt3 (key y) (key x)
  | None => False
  end.
Proof.
  intros Hx Hy.
  destruct x as [[|]|[|]| |[|] m1 e1], y as [[|]|[|]| |[|] m2 e2];
    try congruence; cbn; try lia.
  - destruct (Z.compare_spec e1 e2); cbn; try lia.
    change (Pos.compare_cont Eq m1 m2) with (Pos.compare m1 m2).
    destruct (Pos.compare_spec m1 m2); cbn; subst; lia.
  - destruct (Z.compare_spec e1 e2); cbn; try lia.
    change (Pos.compare_cont Eq m1 m2) with (Pos.compare m1 m2).
    destruct (Pos.compare_spec m1 m2); cbn; subst; lia.
Qed.

Lemma is_nan_spec (a : float) : is_nan a = false <-> Prim2SF a <> S754_nan.
Proof.
  unfold is_nan. rewrite eqb_spec. unfold SFeqb.
  split.
  - intros H E. rewrite E in H. discriminate.
  - intros H. pose proof (SFcompare_key _ _ H H) as K.
    destruct (SFcompare (Prim2SF a) (Prim2SF a)) as [[| |]|]; try reflexivity;
      try contradiction; exfalso;
      destruct (key (Prim2SF a)) as [[k1 k2] k3]; cbn in K; lia.
Qed.

Lemma float_compare_key (a b : float) :
  is_nan a = false -> is_nan b = false ->
  match SFcompare (Prim2SF a) (Prim2SF b) with
  | Some Lt => lt3 (fkey a) (fkey b)
  | Some Eq => eq3 (fkey a) (fkey b)
  | Some Gt => lt3 (fkey b) (fkey a)
  | None => False
  end.
Proof.
  intros Ha Hb. apply SFcompare_key; apply is_nan_spec; assumption.
Qed.

Lemma ltb_key (a b : float) :
  is_nan a = false -> is_nan b = false ->
  if a <? b then lt3 (fkey a) (fkey b)
  else eq3 (fkey a) (fkey b) \/ lt3 (fkey b) (fkey a).
Proof.
  intros Ha Hb. pose proof (float_compare_key a b Ha Hb) as K.
  rewrite ltb_spec. unfold SFltb.
  destruct (SFcompare (Prim2SF a) (Prim2SF b)) as [[| |]|]; tauto.
Qed.

Lemma leb_key (a b : float) :
  is_nan a = false -> is_nan b = false ->
  if a <=? b then eq3 (fkey a) (fkey b) \/ lt3 (fkey a) (fkey b)
  else lt3 (fkey b) (fkey a).
Proof.
  intros Ha Hb. pose proof (float_compare_key a b Ha Hb) as K.
  rewrite leb_spec. unfold SFleb.
  destruct (SFcompare (Prim2SF a) (Prim2SF b)) as [[| |]|]; tauto.
Qed.

Lemma eqb_key (a b : float) :
  is_nan a = false -> is_nan b = false ->
  if a =? b then eq3 (fkey a) (fkey b)
  else lt3 (fkey a) (fkey b) \/ lt3 (fkey b) (fkey a).
Proof.
  intros Ha Hb. pose proof (float_compare_key a b Ha Hb) as K.
  rewrite eqb_spec. unfold SFeqb.
  destruct (SFcompare (Prim2SF a) (Prim2SF b)) as [[| |]|]; tauto.
Qed.

(** A comparison that holds has no NaN on either side. *)
Lemma leb_true_not_nan (a b : float) :
  (a <=? b) = true -> is_nan a = false /\ is_nan b = false.
Proof.
  rewrite leb_spec. unfold SFleb. intros H.
  split; apply is_nan_spec; intros E; rewrite E in H;
    [|destruct (Prim2SF a)]; discriminate.
Qed.

(** Turns every comparison of two numbers known not to be NaN into a fact
    about their keys. *)
Ltac keys :=
  repeat match goal with
  | |- context [?a <? ?b] =>
      let H := fresh "K" in
      pose proof (ltb_key a b ltac:(assumption) ltac:(assumption)) as H;
      destruct (a <? b)
  | |- context [?a <=? ?b] =>
      let H := fresh "K" in
      pose proof (leb_key a b ltac:(assumption) ltac:(assumption)) as H;
      destruct (a <=? b)
  | |- context [?a =? ?b] =>
      let H := fresh "K" in
      pose proof (eqb_key a b ltac:(assumption) ltac:(assumption)) as H;
      destruct (a =? b)
  | H : context [?a <? ?b] |- _ =>
      let K := fresh "K" in
      pose proof (ltb_key a b ltac:(assumption) ltac:(assumption)) as K;
      destruct (a <? b)
  | H : context [?a <=? ?b] |- _ =>
      let K := fresh "K" in
      pose proof (leb_key a b ltac:(assumption) ltac:(assumption)) as K;
      destruct (a <=? b)
  | H : context [?a =? ?b] |- _ =>
      let K := fresh "K" in
      pose proof (eqb_key a b ltac:(assumption) ltac:(assumption)) as K;
      destruct (a =? b)
  end.

Ltac key_lia :=
  unfold fkey in *;
  repeat match goal with
  | H : context [key (Prim2SF ?a)] |- _ =>
      let k := fresh "k" in
      set (k := key (Prim2SF a)) in *; clearbody k;
      destruct k as [[? ?] ?]
  | |- context [key (Prim2SF ?a)] =>
      let k := fresh "k" in
      set (k := key (Prim2SF a)) in *; clearbody k;
      destruct k as [[? ?] ?]
  end;
  unfold lt3, eq3 in *;
  try discriminate; try reflexivity; try lia.

Lemma Math_min_cases (a b : float) :
  is_nan a = false -> is_nan b = false ->
  (Math_min a b = a \/ Math_min a b = b) /\
  (Math_min a b <=? a) = true /\ (Math_min a b <=? b) = true /\
  is_nan (Math_min a b) = false.
Proof.
  intros Ha Hb. unfold Math_min. rewrite Ha, Hb. cbn [orb].
  destruct (a <? b) eqn:E1; [|destruct (b <? a) eqn:E2; [|destruct (get_sign a)]];
    (split; [tauto|]); (repeat split; try assumption);
    revert E1; try revert E2; keys; intros; try discriminate; try reflexivity;
    exfalso; key_lia.
Qed.

Lemma Math_max_cases (a b : float) :
  is_nan a = false -> is_nan b = false ->
  (Math_max a b = a \/ Math_max a b = b) /\
  (a <=? Math_max a b) = true /\ (b <=? Math_max a b) = true /\
  is_nan (Math_max a b) = false.
Proof.
  intros Ha Hb. unfold Math_max. rewrite Ha, Hb. cbn [orb].
  destruct (a <? b) eqn:E1; [|destruct (b <? a) eqn:E2; [|destruct (get_sign a)]];
    (split; [tauto|]); (repeat split; try assumption);
    revert E1; try revert E2; keys; intros; try discriminate; try reflexivity;
    exfalso; key_lia.
Qed.

(** Two numbers with the same key are the same number, or both are zero. *)
Lemma is_zero_cases (a : float) :
  is_zero a = true -> a = zero \/ a = neg_zero.
Proof.
  unfold is_zero. rewrite eqb_spec. unfold SFeqb. intros H.
  rewrite <- (SF2Prim_Prim2SF a).
  destruct (Prim2SF a) as [[|]|[|]| |[|] m e]; try discriminate H;
    [right | left]; reflexivity.
Qed.

Lemma key_eq_cases (a b : float) :
  is_nan a = false -> is_nan b = false ->
  eq3 (fkey a) (fkey b) ->
  a = b \/ (is_zero a = true /\ is_zero b = true).
Proof.
  intros Ha Hb. apply is_nan_spec in Ha. apply is_nan_spec in Hb.
  unfold fkey, is_zero. rewrite !eqb_spec. unfold SFeqb. intros K.
  destruct (Prim2SF a) as [[|]|[|]| |[|] m1 e1] eqn:Ea;
    destruct (Prim2SF b) as [[|]|[|]| |[|] m2 e2] eqn:Eb;
    try congruence; cbn in K; try lia;
    try (right; split; reflexivity);
    left; apply Prim2SF_inj; rewrite Ea, Eb; try reflexivity.
  - assert (e1 = e2) by lia. assert (m1 = m2) by lia. subst. reflexivity.
  - assert (e1 = e2) by lia. assert (m1 = m2) by lia. subst. reflexivity.
Qed.

(** The clamping step of [clamp]: with ordered bounds the value is inside
    the interval and numerically equal to the target cut off at the
    bounds. *)
Lemma inner_clamped (lo hi v : float) :
  is_nan lo = false -> is_nan hi = false -> is_nan v = false ->
  (lo <=? hi) = true ->
  let x := Math_max lo (Math_min hi v) in
  is_nan x = false /\
  (lo <=? x) = true /\ (x <=? hi) = true /\
  (x =? (if v <? lo then lo else if hi <? v then hi else v)) = true.
Proof.
  intros Hlo Hhi Hv Hle x.
  destruct (Math_min_cases hi v Hhi Hv) as (Hm & Hm1 & Hm2 & Hmn).
  set (m := Math_min hi v) in *.
  destruct (Math_max_cases lo m Hlo Hmn) as (Hx & Hx1 & Hx2 & Hxn).
  fold x in Hx, Hx1, Hx2, Hxn.
  split; [exact Hxn|]. split; [exact Hx1|].
  assert (Hc : is_nan (if v <? lo then lo else if hi <? v then hi else v) = false).
  { destruct (v <? lo); [assumption|]. destruct (hi <? v); assumption. }
  split.
  - clearbody x m. revert Hle Hm1 Hm2 Hx1 Hx2.
    destruct Hx as [-> | ->]; [destruct Hm as [E|E] | destruct Hm as [E|E]];
      intros; keys; try discriminate; try reflexivity; exfalso; key_lia.
  - clearbody x m. revert Hle Hm1 Hm2 Hx1 Hx2 Hc.
    destruct Hx as [-> | ->]; destruct Hm as [E|E]; try rewrite E in *;
      intros; keys; try discriminate; try reflexivity; exfalso; key_lia.
Qed.

(** With crossed bounds the clamping step returns the lower bound (up to the
    sign of zero), whatever the target. *)
Lemma inner_crossed (lo hi v : float) :
  is_nan v = false -> (hi <=? lo) = true ->
  let x := Math_max lo (Math_min hi v) in
  x = lo \/ (is_zero lo = true /\ is_zero x = true).
Proof.
  intros Hv Hle x.
  destruct (leb_true_not_nan _ _ Hle) as [Hhi Hlo].
  destruct (Math_min_cases hi v Hhi Hv) as (_ & Hm1 & _ & Hmn).
  set (m := Math_min hi v) in *.
  destruct (Math_max_cases lo m Hlo Hmn) as (Hx & Hx1 & Hx2 & Hxn).
  fold x in Hx, Hx1, Hx2, Hxn.
  destruct Hx as [Hx | Hx]; [left; exact Hx|].
  assert (K : eq3 (fkey x) (fkey lo)).
  { rewrite Hx in *. clearbody m. clear Hx x.
    revert Hle Hm1 Hx1. keys; intros; try discriminate; key_lia. }
  destruct (key_eq_cases x lo Hxn Hlo K) as [E | [E1 E2]];
    [left; exact E | right; split; assumption].
Qed.

End JSSpec.

(* ====================================================================== *)
(** * Properties of the trim editor *)
(* ====================================================================== *)

Module TrimSpec.
Import JS JSSpec Trim.
Local Open Scope float_scope.
Local Unset Implicit Arguments.

(** ** Rendering keeps the cells *)





Lemma jobId_rerender (st st' : State) : jobId (rerender st st') = jobId st'.
Proof. unfold rerender. destruct (same_cells st st'); reflexivity. Qed.

Lemma confirmed_rerender (st st' : State) :
  confirmed (rerender st st') = confirmed st'.
Proof. unfold rerender. destruct (same_cells st st'); reflexivity. Qed.

Lemma mutation_rerender (st st' : State) :
  mutation (rerender st st') = mutation st'.
Proof. unfold rerender. destruct (same_cells st st'); reflexivity. Qed.

Lemma inFlight_rerender (st st' : State) :
  inFlight (rerender st st') = inFlight st'.
Proof. unfold rerender. destruct (same_cells st st'); reflexivity. Qed.

Lemma dragging_rerender (st st' : State) :
  dragging (rerender st st') = dragging st'.
Proof. unfold rerender. destruct (same_cells st st'); reflexivity. Qed.

Lemma observed_rerender (st st' : State) :
  observed (rerender st st') = observed st'.
Proof. unfold rerender. destruct (same_cells st st'); reflexivity. Qed.


(** ** The ways the range changes *)

Lemma handleTimelineChange_range (s e : float) (st : State) :
  start (handleTimelineChange s e st) = s /\
  end_ (handleTimelineChange s e st) = e.
Proof.
  unfold handleTimelineChange. destruct (confirmed st); split; reflexivity.
Qed.

Lemma parsed_or_zero_not_nan (v : option float) :
  is_nan (parsed_or_zero v) = false.
Proof.
  destruct v as [q|]; cbn [parsed_or_zero]; [|reflexivity].
  destruct (is_nan q) eqn:Hq; cbn [orb]; [reflexivity|].
  destruct (is_zero q); [reflexivity | exact Hq].
Qed.

(** What [clamp] returns for ordered bounds. *)
Lemma clamp_rounded_into (v lo hi : float) :
  is_nan v = false -> (lo <=? hi) = true ->
  rounded_into lo hi v (clamp v lo hi).
Proof.
  intros Hv Hle. destruct (leb_true_not_nan _ _ Hle) as [Hlo Hhi].
  destruct (inner_clamped lo hi v Hlo Hhi Hv Hle) as (_ & H1 & H2 & H3).
  exists (Math_max lo (Math_min hi v)).
  split; [reflexivity|]. split; [exact H1|]. split; [exact H2|exact H3].
Qed.





(** ** What is sent *)

Lemma isValid_iff (p : Props) (st : State) :
  isValid p st = true <->
  (0 <=? start st) = true /\ (end_ st <=? total p + 0.1) = true /\
  (0.5 <=? end_ st - start st) = true.
Proof.
  unfold isValid, removeDuration. rewrite !andb_true_iff. tauto.
Qed.

(** A request leaves only by a click on the enabled confirm button of a
    confirmed editor, and carries the range on display. *)
Lemma step_request (p : Props) (st : State) (e : event) (r : request) :
  In r (snd (step p st e)) ->
  e = ClickConfirm /\
  r = StartTrim (media_id p) (start st) (end_ st) (issue_id p) /\
  confirmed st = true /\ isProcessing st = false /\
  confirmDisabled p st = false.
Proof.
  intros Hin.
  destruct e; cbn [step] in Hin;
    try (destruct (isProcessing st); cbn in Hin; contradiction);
    try (destruct (existsb _ _); cbn in Hin; contradiction);
    try (cbn in Hin; contradiction).
  destruct (isProcessing st) eqn:Hproc; cbn [orb] in Hin; [contradiction|].
  destruct (confirmDisabled p st) eqn:Hdis; [contradiction|].
  unfold handleConfirm in Hin.
  destruct (confirmed st) eqn:Hc; cbn in Hin; [|contradiction].
  destruct Hin as [<- | []].
  repeat split; reflexivity.
Qed.

(** ** The confirmation gate *)

(** C1.  The gate itself works (first activation confirms and sends
    nothing, the second sends one request), and a drag resets it; but typing
    into a numeric field does not: after one activation, typing 12 into
    "Remove from" moves the range to 12 s - 15 s and leaves [confirmed] set,
    so the next activation submits the changed range at once. *)
Theorem numeric_input_keeps_confirmation :
  confirmed (fst confirm_once) = true /\ snd confirm_once = [] /\
  confirmed (fst confirm_dragged) = false /\
  confirmed (fst confirm_typed) = true /\
  start (fst confirm_typed) = 12 /\ end_ (fst confirm_typed) = 15 /\
  exists s e, snd confirm_typed_confirm = [StartTrim 1 s e 1] /\
              s = 12 /\ e = 15.
Proof.
  repeat match goal with |- _ /\ _ => split end;
    try (vm_compute; reflexivity).
  exists 12, 15. repeat split; vm_compute; reflexivity.
Qed.

(** ** The range invariant *)




(** ** Dragging *)

(** C3, the claim as the specification reads it, fails: the start handle of
    the detection that ends at 15.27 s, dragged to the right end of the bar
    (120 s), stops at 14.8, which is neither inside [0, end - 0.5] nor the
    target cut off at that interval. *)
Lemma drag_clamping_counterexample :
  dragging offgrid_dragged = Some HStart /\
  toSeconds offgrid 1 = 120 /\
  end_ offgrid_dragged = 15.27 /\ start offgrid_dragged = 14.8 /\
  (end_ offgrid_dragged - 0.5 <? start offgrid_dragged) = true /\
  (start offgrid_dragged =? clamped 0 (end_ offgrid_dragged - 0.5) 120) = false.
Proof.
  repeat match goal with |- _ /\ _ => split end; vm_compute; reflexivity.
Qed.

(** C3, amended.  Dragging a handle to [t] sets it to [clamp] of [t] between
    its two bounds and leaves the other handle alone; with ordered bounds
    that is [t] cut off at [0, end - 0.5] (start) or [start + 0.5, duration]
    (end) and then rounded to one decimal.  In the scenario of the
    specification the end handle dragged to 9.7 stops at 10.5 and the start
    handle dragged to 11 then stops at 10.0. *)
Theorem drag_clamping :
  (forall (p : Props) (st : State) (h : handle) (t : float),
     let st' := move p t (set_dragging (Some h) st) in
     match h with
     | HStart =>
         start st' = clamp t 0 (end_ st - 0.5) /\ end_ st' = end_ st /\
         (is_nan t = false -> (0 <=? end_ st - 0.5) = true ->
          rounded_into 0 (end_ st - 0.5) t (start st'))
     | HEnd =>
         end_ st' = clamp t (start st + 0.5) (total p) /\
         start st' = start st /\
         (is_nan t = false -> (start st + 0.5 <=? total p) = true ->
          rounded_into (start st + 0.5) (total p) t (end_ st'))
     end) /\
  (toSeconds scenario (9.7 / 120) = 9.7 /\
   dragging (fst scenario_end_dragged) = Some HEnd /\
   start (fst scenario_end_dragged) = 10 /\
   end_ (fst scenario_end_dragged) = 10.5) /\
  (toSeconds scenario (11 / 120) = 11 /\
   dragging (fst scenario_start_dragged) = Some HStart /\
   start (fst scenario_start_dragged) = 10 /\
   end_ (fst scenario_start_dragged) = 10.5).
Proof.
  split; [|split].
  - intros p st h t st'. subst st'. unfold move.
    destruct h; cbn [dragging set_dragging start end_].
    + destruct (handleTimelineChange_range (clamp t 0 (end_ st - 0.5)) (end_ st)
                  (set_dragging (Some HStart) st)) as [Hs He].
      split; [exact Hs|]. split; [exact He|].
      intros Ht Hle. rewrite Hs. apply clamp_rounded_into; assumption.
    + destruct (handleTimelineChange_range (start st)
                  (clamp t (start st + 0.5) (total p))
                  (set_dragging (Some HEnd) st)) as [Hs He].
      split; [exact He|]. split; [exact Hs|].
      intros Ht Hle. rewrite He. apply clamp_rounded_into; assumption.
  - repeat match goal with |- _ /\ _ => split end; vm_compute; reflexivity.
  - repeat match goal with |- _ /\ _ => split end; vm_compute; reflexivity.
Qed.

Lemma drag_clamping_witness :
  rounded_into (10 + 0.5) 120 9.7 10.5 /\ rounded_into 0 (10.5 - 0.5) 11 10.
Proof.
  destruct drag_clamping as [H _].
  pose proof (H scenario (init scenario) HEnd 9.7) as (_ & _ & He).
  pose proof (H scenario (fst scenario_end_dragged) HStart 11) as (_ & _ & Hs).
  split.
  - apply He; vm_compute; reflexivity.
  - apply Hs; vm_compute; reflexivity.
Defined.

(** ** The submit control *)




(** The tolerance is used: a range that ends 0.1 s after the end of the
    two-minute file can be submitted, one that ends 0.2 s after it cannot. *)
Lemma confirm_enabled_past_duration :
  confirmDisabled past_duration (init past_duration) = false /\
  confirmDisabled far_past_duration (init far_past_duration) = true.
Proof. split; vm_compute; reflexivity. Qed.

End TrimSpec.

(* ====================================================================== *)
(** * Properties of the scan toast *)
(* ====================================================================== *)

Module ToastSpec.
Import Toast.
Local Open Scope nat_scope.

(** ** The scheduler keeps the books *)

Lemma perform_all_comp (acts : list action) (w : World) :
  comp (fold_left perform acts w) = comp w.
Proof.
  revert w. induction acts as [|a acts IH]; intros w; cbn [fold_left].
  - reflexivity.
  - rewrite IH. destruct a; reflexivity.
Qed.

Lemma perform_all_log (acts : list action) (w : World) :
  log (fold_left perform acts w) = log w ++ acts.
Proof.
  revert w. induction acts as [|a acts IH]; intros w; cbn [fold_left].
  - symmetry. apply app_nil_r.
  - rewrite IH. destruct a; cbn [perform log]; rewrite <- app_assoc; reflexivity.
Qed.

Lemma comp_commit (w : World) (r : State * list action) :
  comp (commit w r) = fst r.
Proof. unfold commit. rewrite perform_all_comp. reflexivity. Qed.

Lemma log_commit (w : World) (r : State * list action) :
  log (commit w r) = log w ++ snd r.
Proof. unfold commit. rewrite perform_all_log. reflexivity. Qed.

(** Case analysis on an enabled step. *)
Ltac step_cases H :=
  match type of H with
  | step ?w ?e = Some ?w' =>
      destruct e; cbn [step] in H;
      repeat match type of H with
             | (if ?b then _ else _) = Some _ => destruct b eqn:?
             | match ?x with _ => _ end = Some _ => destruct x eqn:?
             end;
      try discriminate H; injection H as H; subst w'
  end.

(** ** [wasRunning] is the feed of the previous tick *)




(** ** The follow-up fetch *)







(** ** A failed follow-up fetch *)

(** C9.  When the follow-up fetch is rejected the phase becomes hidden:
    nothing is rendered, no error line is shown and nothing is sent.  The
    failed phase is entered by a fetched status "failed" only. *)
Theorem getJob_rejected_hides (w w' : World) (e : event) :
  step w e = Some w' ->
  (forall i, e = GetJobRejected i ->
     phase (comp w') = hidden /\ visible (comp w') = false /\
     shown_error (comp w') = None /\ snap (comp w') = snap (comp w) /\
     log w' = log w) /\
  (phase (comp w') = failed ->
   phase (comp w) = failed \/
   exists i finalJob, e = GetJobResolved i finalJob /\ status finalJob = Failed).
Proof.
  intros H. split.
  - intros i ->. cbn [step] in H.
    destruct (in_flight i w); [|discriminate]. injection H as <-.
    rewrite comp_commit, log_commit. cbn. rewrite app_nil_r.
    repeat split; reflexivity.
  - step_cases H; rewrite ?comp_commit; cbn [settle_cancel comp].
    + destruct jobs as [|j js]; cbn.
      * destruct (wasRunning (comp w)); [destruct (snap (comp w))|]; cbn; auto.
      * discriminate.
    + unfold onGetJobResolved. destruct (status finalJob) eqn:Hst; cbn;
        try discriminate.
      intros _. right. exists job_id, finalJob. split; [reflexivity | exact Hst].
    + cbn. discriminate.
    + cbn. discriminate.
    + cbn. discriminate.
    + cbn. discriminate.
    + cbn. congruence.
    + cbn. discriminate.
    + auto.
Qed.

Lemma getJob_rejected_hides_witness :
  phase (comp (after rejected_fetch)) = hidden /\
  visible (comp (after rejected_fetch)) = false /\
  shown_error (comp (after rejected_fetch)) = None.
Proof.
  destruct (@getJob_rejected_hides (after (firstn 2 rejected_fetch))
              (after rejected_fetch) (GetJobRejected 1) eq_refl)
    as [H _].
  destruct (H 1 eq_refl) as (H1 & H2 & H3 & _).
  repeat split; assumption.
Defined.

(** ** The dismiss timer *)

Lemma perform_all_timers_keep (acts : list action) (w : World) :
  (forall a, In a acts ->
     match a with SetTimeout _ _ | ClearTimeout _ => False | _ => True end) ->
  timers (fold_left perform acts w) = timers w.
Proof.
  revert w. induction acts as [|a acts IH]; intros w H; cbn [fold_left].
  - reflexivity.
  - rewrite IH by (intros b Hb; apply H; right; exact Hb).
    specialize (H a (or_introl eq_refl)). destruct a; try reflexivity; contradiction.
Qed.

Lemma armed_In (t : timer) (w : World) : armed t w = true <-> In t (timers w).
Proof.
  unfold armed. rewrite existsb_exists. split.
  - intros (x & Hx & Hq). apply Pos.eqb_eq in Hq. subst x. exact Hx.
  - intros H. exists t. split; [exact H | apply Pos.eqb_refl].
Qed.






End ToastSpec.

(* ====================================================================== *)
(** * Properties of the Plex connection flow *)
(* ====================================================================== *)

Module PlexSpec.
Import Plex.
Local Open Scope nat_scope.
Local Open Scope string_scope.
Local Open Scope list_scope.
Unset Implicit Arguments.

(** ** The scheduler keeps the books *)

Lemma flow_perform_comp (acts : list action) (w : World) :
  comp (fold_left perform acts w) = comp w.
Proof.
  revert w. induction acts as [|a acts IH]; intros w; cbn [fold_left].
  - reflexivity.
  - rewrite IH. reflexivity.
Qed.

Lemma flow_perform_log (acts : list action) (w : World) :
  log (fold_left perform acts w) = log w ++ acts.
Proof.
  revert w. induction acts as [|a acts IH]; intros w; cbn [fold_left].
  - symmetry. apply app_nil_r.
  - rewrite IH. cbn [perform log]. rewrite <- app_assoc. reflexivity.
Qed.

Lemma flow_comp_commit (w : World) (r : State * list action) :
  comp (commit w r) = fst r.
Proof. unfold commit. rewrite flow_perform_comp. reflexivity. Qed.

Lemma flow_log_commit (w : World) (r : State * list action) :
  log (commit w r) = log w ++ snd r.
Proof. unfold commit. rewrite flow_perform_log. reflexivity. Qed.

Lemma count_app (f : action -> bool) (l1 l2 : list action) :
  count f (l1 ++ l2) = count f l1 + count f l2.
Proof. unfold count. rewrite filter_app, length_app. reflexivity. Qed.

(** Case analysis on an enabled step. *)
Ltac flow_cases H :=
  match type of H with
  | step ?w ?e = Some ?w' =>
      destruct e; cbn [step] in H;
      repeat match type of H with
             | (if ?b then _ else _) = Some _ => destruct b eqn:?
             | match ?x with _ => _ end = Some _ => destruct x eqn:?
             end;
      try discriminate H; injection H as H; subst w'
  end.

Ltac handlers :=
  unfold commit, onStatus, startAuthMut_mutate, startAuthMut_onSuccess,
    startAuthMut_onError, startPolling, pollTick, pollAnswered,
    serversAnswered, cancel, stopPolling, selectServerMut_mutate,
    selectServerMut_onSuccess, selectServerMut_onError,
    saveLibrariesMut_mutate, saveLibrariesMut_onSuccess,
    saveLibrariesMut_onError, onChangeLibraries, disconnectMut_mutate,
    disconnectMut_onSuccess.

(** ** Intervals *)

Lemma recorded_filtered (h : interval) (l : list (interval * nat)) :
  (forall x, In x l -> Some h = Some (fst x)) ->
  filter (other_handle h) l = [].
Proof.
  induction l as [|x l IH]; intros H; cbn [filter].
  - reflexivity.
  - assert (Hx : Some h = Some (fst x)) by (apply H; left; reflexivity).
    injection Hx as Hx. unfold other_handle at 1. rewrite <- Hx, Pos.eqb_refl.
    cbn. apply IH. intros y Hy. apply H. right. exact Hy.
Qed.

Lemma recorded_none (l : list (interval * nat)) :
  (forall x, In x l -> @None interval = Some (fst x)) -> l = [].
Proof.
  destruct l as [|x l]; intros H; [reflexivity|].
  specialize (H x (or_introl eq_refl)). discriminate.
Qed.

(** What a step does to the armed intervals and to [pollRef]. *)
Lemma step_intervals (w w' : World) (e : event) :
  intervals_recorded w -> step w e = Some w' ->
  (intervals w' = intervals w /\ pollRef (comp w') = pollRef (comp w)) \/
  (intervals w' = [] /\ pollRef (comp w') = None) \/
  (is_AuthStartOk e = true /\
   exists id, intervals w' = [(next_interval w, id)] /\
              pollRef (comp w') = Some (next_interval w)).
Proof.
  unfold intervals_recorded. intros Hrec H.
  assert (Hiv : match pollRef (comp w) with
                | Some h => filter (other_handle h) (intervals w) = []
                | None => intervals w = []
                end).
  { destruct (pollRef (comp w)) as [h|].
    - apply recorded_filtered, Hrec.
    - apply recorded_none, Hrec. }
  clear Hrec.
  destruct (pollRef (comp w)) as [h0|] eqn:Hp;
    (flow_cases H; rewrite ?flow_comp_commit; handlers; cbn; rewrite ?Hp; cbn;
     repeat match goal with
            | |- context [match phase (comp w) with _ => _ end] =>
                destruct (phase (comp w))
            | |- context [match ?r with Some _ => _ | None => _ end] =>
                destruct r
            | |- context [if ?b then _ else _] => destruct b
            end;
     cbn; rewrite ?Hp, ?Hiv; cbn;
     first [ left; split; reflexivity
           | right; left; split; reflexivity
           | right; right; split; [reflexivity|];
             eexists; split; reflexivity ]).
Qed.

Lemma recorded_step (w w' : World) (e : event) :
  intervals_recorded w -> step w e = Some w' -> intervals_recorded w'.
Proof.
  intros Hrec H.
  destruct (@step_intervals w w' e Hrec H) as [[Hi Hp] | [[Hi Hp] | [_ (id & Hi & Hp)]]];
    unfold intervals_recorded in *; rewrite Hi, Hp.
  - exact Hrec.
  - intros x [].
  - intros x [<- | []]. reflexivity.
Qed.

Lemma recorded_run (es : list event) (w w' : World) :
  intervals_recorded w -> run w es = Some w' -> intervals_recorded w'.
Proof.
  revert w. induction es as [|e es IH]; intros w Hrec H; cbn in H.
  - injection H as <-. exact Hrec.
  - destruct (step w e) as [w1|] eqn:He; [|discriminate].
    eapply IH; [|exact H]. eapply recorded_step; eassumption.
Qed.

Lemma recorded_mount : intervals_recorded mount.
Proof. intros x []. Qed.

(** ** Counting requests *)


Lemma servers_step (w w' : World) (e : event) :
  step w e = Some w' ->
  count is_PlexServers (log w') =
  count is_PlexServers (log w) + (if is_authorized e then 1 else 0).
Proof.
  intros H.
  flow_cases H; rewrite flow_log_commit, count_app; handlers; cbn;
    try destruct (pollRef (comp w)); try destruct (phase (comp w));
    try destruct res as [[|]|]; try destruct res;
    unfold count; cbn; lia.
Qed.

Lemma servers_run (es : list event) (w w' : World) :
  run w es = Some w' ->
  count is_PlexServers (log w') =
  count is_PlexServers (log w) + List.length (filter is_authorized es).
Proof.
  revert w. induction es as [|e es IH]; intros w H; cbn in H.
  - injection H as <-. cbn. lia.
  - destruct (step w e) as [w1|] eqn:He; [|discriminate].
    rewrite (IH _ H), (servers_step _ _ _ He). cbn [filter].
    destruct (is_authorized e); cbn; lia.
Qed.



(** ** Polls answered in turn *)

Lemma existsb_last (i : nat) (l : list nat) :
  existsb (Nat.eqb i) (l ++ [i]) = true.
Proof. rewrite existsb_app. cbn. rewrite Nat.eqb_refl. apply orb_true_r. Qed.

Lemma round_run (w : World) (h : interval) (id : nat) (r : option bool) :
  polled h (intervals w) = Some id ->
  run w [Tick h; PollAnswered id r] =
  Some (commit (settle (KPoll id) (commit w (pollTick id (comp w))))
               (pollAnswered r (comp w))).
Proof.
  intros Hp. cbn [run step]. rewrite Hp.
  rewrite flow_comp_commit.
  replace (in_flight (KPoll id) (commit w (pollTick id (comp w)))) with true
    by (symmetry; cbn; apply existsb_last).
  reflexivity.
Qed.

Lemma run_app (es1 es2 : list event) (w w1 : World) :
  run w es1 = Some w1 -> run w (es1 ++ es2) = run w1 es2.
Proof.
  revert w. induction es1 as [|e es1 IH]; intros w H; cbn in *.
  - injection H as <-. reflexivity.
  - destruct (step w e) as [w'|]; [|discriminate]. apply IH, H.
Qed.

Lemma answered_in_turn_cons (h : interval) (id : nat) (r : option bool)
      (rs : list (option bool)) :
  answered_in_turn h id (r :: rs) =
  [Tick h; PollAnswered id r] ++ answered_in_turn h id rs.
Proof. reflexivity. Qed.

Lemma in_turn_run (h : interval) (id : nat) (rs : list (option bool)) (w : World) :
  forallb not_authorized rs = true ->
  polled h (intervals w) = Some id ->
  exists w', run w (answered_in_turn h id rs) = Some w' /\
             comp w' = comp w /\ intervals w' = intervals w /\
             log w' = log w ++ repeat (PlexAuthPoll id) (List.length rs).
Proof.
  revert w. induction rs as [|r rs IH]; intros w Hna Hp.
  - exists w. cbn. rewrite app_nil_r. repeat split; reflexivity.
  - cbn [forallb] in Hna. apply andb_true_iff in Hna. destruct Hna as [Hr Hrs].
    rewrite answered_in_turn_cons.
    rewrite (run_app _ (answered_in_turn h id rs) _ _ (round_run w h id r Hp)).
    set (w1 := commit _ (pollAnswered r (comp w))).
    assert (Hw1 : comp w1 = comp w /\ intervals w1 = intervals w /\
                  log w1 = log w ++ [PlexAuthPoll id]).
    { unfold w1. destruct r as [[|]|]; try discriminate; repeat split; reflexivity. }
    destruct Hw1 as (Hc & Hi & Hl).
    destruct (IH w1 Hrs) as (w' & Hrun & Hc' & Hi' & Hl').
    { rewrite Hi. exact Hp. }
    exists w'. split; [exact Hrun|].
    split; [congruence|]. split; [congruence|].
    rewrite Hl', Hl, <- app_assoc. reflexivity.
Qed.

Lemma count_repeat_polls (id n : nat) :
  count is_PlexAuthPoll (repeat (PlexAuthPoll id) n) = n.
Proof.
  unfold count. induction n as [|n IH]; cbn; [reflexivity | f_equal; exact IH].
Qed.

Lemma count_repeat_servers (id n : nat) :
  count is_PlexServers (repeat (PlexAuthPoll id) n) = 0.
Proof.
  unfold count. induction n as [|n IH]; cbn; [reflexivity | exact IH].
Qed.

(** ** Cancelling *)




(** ** The authorization poll *)

(** C6, the claim as stated, fails: the interval sends a poll every two
    seconds whether or not the previous one was answered; when two polls are
    in flight and both answers say authorized, the server list is requested
    twice. *)
Lemma overlapping_polls_counterexample :
  run mount overlapping_polls = Some (after overlapping_polls) /\
  phase (comp (after (firstn 3 overlapping_polls))) = awaiting_auth /\
  phase (comp (after overlapping_polls)) = picking_server /\
  intervals (after overlapping_polls) = [] /\
  count is_PlexServers (log (after overlapping_polls)) = 2.
Proof.
  repeat match goal with |- _ /\ _ => split end; vm_compute; reflexivity.
Qed.

(** C6, amended.  Entering awaiting_auth arms one interval of 2000 ms.  When
    every poll is answered before the next tick, then after any number of
    refusals and failures the answer "authorized" clears the interval, sets
    the phase to picking_server and requests the server list exactly once.
    In every run the list is requested once per answer that says
    authorized. *)
Theorem poll_authorized_fetches_once
        (w : World) (h : interval) (id : nat) (rs : list (option bool)) :
  intervals w = [(h, id)] -> pollRef (comp w) = Some h ->
  forallb not_authorized rs = true ->
  (forall h' data st,
      phase (fst (startAuthMut_onSuccess h' data st)) = awaiting_auth /\
      pollRef (fst (startAuthMut_onSuccess h' data st)) = Some h' /\
      snd (startAuthMut_onSuccess h' data st) =
      snd (stopPolling st) ++ [SetInterval h' (pin_id data) 2000]) /\
  (exists w',
      run w (answered_in_turn h id rs ++ [Tick h; PollAnswered id (Some true)])
        = Some w' /\
      phase (comp w') = picking_server /\ pollRef (comp w') = None /\
      intervals w' = [] /\ step w' (Tick h) = None /\
      count is_PlexServers (log w') = count is_PlexServers (log w) + 1 /\
      count is_PlexAuthPoll (log w') =
        count is_PlexAuthPoll (log w) + List.length rs + 1) /\
  (forall es w1 w2,
      run w1 es = Some w2 ->
      count is_PlexServers (log w2) =
      count is_PlexServers (log w1) + List.length (filter is_authorized es)).
Proof.
  intros Hiv Hp Hna. split; [|split].
  - intros h' data st. unfold startAuthMut_onSuccess, startPolling, stopPolling.
    cbn. destruct (pollRef st); cbn; repeat split; reflexivity.
  - assert (Hpoll : polled h (intervals w) = Some id)
      by (rewrite Hiv; cbn; rewrite Pos.eqb_refl; reflexivity).
    destruct (in_turn_run h id rs w Hna Hpoll) as (w1 & Hrun & Hc & Hi & Hl).
    assert (Hpoll1 : polled h (intervals w1) = Some id) by (rewrite Hi; exact Hpoll).
    exists (commit (settle (KPoll id) (commit w1 (pollTick id (comp w1))))
                   (pollAnswered (Some true) (comp w1))).
    split; [rewrite (run_app _ _ _ _ Hrun); apply round_run, Hpoll1|].
    unfold pollAnswered, stopPolling, pollTick, commit.
    rewrite Hc, Hp. cbn. rewrite Hi, Hiv, Hl. cbn. unfold other_handle. cbn.
    rewrite Pos.eqb_refl. cbn.
    repeat split.
    + pose proof (count_repeat_servers id (List.length rs)) as Hr.
      unfold count in *. rewrite !filter_app, !length_app, Hr. cbn. lia.
    + pose proof (count_repeat_polls id (List.length rs)) as Hr.
      unfold count in *. rewrite !filter_app, !length_app, Hr. cbn. lia.
  - intros es w1 w2. apply servers_run.
Qed.

Lemma poll_authorized_fetches_once_witness :
  phase (comp (after auth_scenario)) = picking_server /\
  count is_PlexServers (log (after auth_scenario)) = 1.
Proof.
  assert (H1 : intervals (after to_awaiting_auth) = [(1%positive, 7)])
    by (vm_compute; reflexivity).
  assert (H2 : pollRef (comp (after to_awaiting_auth)) = Some 1%positive)
    by (vm_compute; reflexivity).
  assert (H3 : forallb not_authorized [Some false; Some false] = true)
    by reflexivity.
  destruct (poll_authorized_fetches_once _ _ _ _ H1 H2 H3)
    as (_ & (w' & Hrun & Hph & _ & _ & _ & Hcount & _) & _).
  assert (Hw : w' = after auth_scenario)
    by (vm_compute in Hrun; injection Hrun as <-; vm_compute; reflexivity).
  rewrite <- Hw. split; [exact Hph|].
  rewrite Hcount. vm_compute. reflexivity.
Defined.

(** ** Failed submissions *)

(** C8.  A failed start-auth request sets the phase to idle and a failed
    select-server request sets it to picking_server, both with the message
    of the error in [error] (shown in the banner unless it is empty); neither
    sends anything, so the request is not repeated. *)
Theorem submission_error_reverts
        (w w' : World) (e : event) (message : string) :
  step w e = Some w' ->
  (e = AuthStartErr message ->
   phase (comp w') = idle /\ error (comp w') = Some message /\
   banner (comp w') = (if String.eqb message "" then None else Some message) /\
   log w' = log w /\ auth_pending w' = pred (auth_pending w)) /\
  (e = SelectErr message ->
   phase (comp w') = picking_server /\ error (comp w') = Some message /\
   banner (comp w') = (if String.eqb message "" then None else Some message) /\
   log w' = log w /\ select_pending w' = pred (select_pending w)) /\
  (e = ClickConnect ->
   phase (comp w) = idle /\ phase (comp w') = starting /\
   log w' = log w ++ [PlexAuthStart]) /\
  (forall s, e = ClickSelect s ->
   phase (comp w) = picking_server /\ phase (comp w') = connecting /\
   log w' = log w ++ [PlexSelectServer (name s) (machine_id s) (best_url s)]).
Proof.
  intros H. split; [|split; [|split]].
  - intros ->. cbn [step] in H.
    destruct (in_flight KAuth w); [|discriminate]. injection H as <-.
    rewrite flow_comp_commit, flow_log_commit. cbn. rewrite app_nil_r.
    repeat split; reflexivity.
  - intros ->. cbn [step] in H.
    destruct (in_flight KSelect w); [|discriminate]. injection H as <-.
    rewrite flow_comp_commit, flow_log_commit. cbn. rewrite app_nil_r.
    repeat split; reflexivity.
  - intros ->. cbn [step] in H.
    destruct (phase (comp w)) eqn:Hph; try discriminate. injection H as <-.
    rewrite flow_comp_commit, flow_log_commit. repeat split; reflexivity.
  - intros s ->. cbn [step] in H.
    destruct (phase (comp w)) eqn:Hph; try discriminate.
    destruct (existsb (server_eqb s) (servers (comp w))); [|discriminate].
    injection H as <-.
    rewrite flow_comp_commit, flow_log_commit. repeat split; reflexivity.
Qed.

Lemma submission_error_reverts_witness :
  phase (comp (after auth_start_fails)) = idle /\
  banner (comp (after auth_start_fails)) = Some "502 Bad Gateway: " /\
  log (after auth_start_fails) = [PlexAuthStart] /\
  phase (comp (after select_fails)) = picking_server /\
  banner (comp (after select_fails)) = Some "502 Bad Gateway: ".
Proof.
  assert (H1 : step (after (firstn 2 auth_start_fails))
                    (AuthStartErr "502 Bad Gateway: ") =
               Some (after auth_start_fails))
    by (vm_compute; reflexivity).
  assert (H2 : step (after (removelast select_fails))
                    (SelectErr "502 Bad Gateway: ") =
               Some (after select_fails))
    by (vm_compute; reflexivity).
  destruct (submission_error_reverts _ _ _ "502 Bad Gateway: " H1) as (Ha & _).
  destruct (Ha eq_refl) as (A1 & _ & A3 & A4 & _).
  destruct (submission_error_reverts _ _ _ "502 Bad Gateway: " H2)
    as (_ & Hs & _).
  destruct (Hs eq_refl) as (S1 & _ & S3 & _).
  split; [exact A1|]. split; [exact A3|].
  split; [rewrite A4; vm_compute; reflexivity|].
  split; [exact S1 | exact S3].
Defined.

Set Implicit Arguments.

End PlexSpec.

(* ====================================================================== *)
(** * Further properties of the trim editor *)
(* ====================================================================== *)

Module TrimExtra.
Import JS JSSpec Trim TrimSpec.
Local Open Scope float_scope.
Local Unset Implicit Arguments.

(** ** Arithmetic in doubles

    The rounding of [clamp] can leave the bounds by more than half a tenth
    as the code adds it up, and the decimal steps of the editor are not
    exact. *)
Lemma clamp_in_doubles :
  clamp 1000 0 (1.15 - 0.5) = 0.6 /\
  clamp 100 0 0.35 = 0.4 /\ (0.35 + 0.05 <? 0.4) = true /\
  0.7 - 0.2 = 0.49999999999999994 /\
  64.1 + 0.1 = 64.19999999999999.
Proof.
  repeat match goal with |- _ /\ _ => split end; vm_compute; reflexivity.
Qed.

(** A pointer-down in the middle of the selection 1.7 s - 2.3 s grabs the
    end handle: the two distances are computed as 0.30000000000000004 and
    0.2999999999999998. *)
Lemma pointer_down_midpoint_tie :
  toSeconds scenario (2 / 120) = 2 /\
  Math_abs (2 - start midpoint_tie) = 0.30000000000000004 /\
  Math_abs (2 - end_ midpoint_tie) = 0.2999999999999998 /\
  dragging (handlePointerDown scenario (2 / 120) midpoint_tie) = Some HEnd.
Proof.
  repeat match goal with |- _ /\ _ => split end; vm_compute; reflexivity.
Qed.

Lemma round10_zero (x : float) :
  is_zero x = true -> is_zero (round10 x) = true.
Proof.
  intros H. destruct (is_zero_cases x H) as [-> | ->]; vm_compute; reflexivity.
Qed.

(** With crossed bounds ([hi <= lo]) [clamp] ignores both the value and the
    upper bound: the result is the lower bound, rounded (a lower bound of
    zero gives zero, of either sign). *)
Theorem clamp_crossed_bounds (v lo hi : float) :
  is_nan v = false -> (hi <=? lo) = true ->
  clamp v lo hi = round10 lo \/
  (is_zero lo = true /\ is_zero (clamp v lo hi) = true /\
   is_zero (round10 lo) = true).
Proof.
  intros Hv Hle.
  destruct (inner_crossed lo hi v Hv Hle) as [E | [Hz Hx]].
  - left. unfold clamp, round10. rewrite E. reflexivity.
  - right. split; [exact Hz|]. split.
    + apply (round10_zero _ Hx).
    + apply round10_zero, Hz.
Qed.

Lemma clamp_crossed_bounds_witness :
  clamp 0 0.3 (-0.2) = round10 0.3 \/
  (is_zero 0.3 = true /\ is_zero (clamp 0 0.3 (-0.2)) = true /\
   is_zero (round10 0.3) = true).
Proof.
  apply (clamp_crossed_bounds 0 0.3 (-0.2)); vm_compute; reflexivity.
Defined.

(** Whatever the state and the event, a request is sent only by a click on
    the confirm button of a confirmed editor with no job, while the
    [isPending] flag as rendered is down, and it carries the range on
    display, which passes the three comparisons of the validity check. *)
Theorem requests_are_valid (p : Props) (st : State) (e : event) (r : request) :
  In r (snd (step p st e)) ->
  e = ClickConfirm /\
  r = StartTrim (media_id p) (start st) (end_ st) (issue_id p) /\
  confirmed st = true /\ isPending st = false /\ jobId st = None /\
  (0 <=? start st) = true /\ (end_ st <=? total p + 0.1) = true /\
  (0.5 <=? end_ st - start st) = true.
Proof.
  intros Hin.
  destruct (step_request p st e r Hin) as (He & Hr & Hc & Hproc & Hdis).
  unfold confirmDisabled in Hdis. apply orb_false_iff in Hdis.
  destruct Hdis as [Hv Hp]. apply negb_false_iff, isValid_iff in Hv.
  unfold isProcessing in Hproc. destruct (jobId st); [discriminate|].
  repeat split; try assumption; apply Hv.
Qed.

Lemma requests_are_valid_witness :
  (0 <=? start (fst confirm_once)) = true /\
  (0.5 <=? end_ (fst confirm_once) - start (fst confirm_once)) = true.
Proof.
  assert (Hin : In (StartTrim 1 10 15 1)
                   (snd (step scenario (fst confirm_once) ClickConfirm)))
    by (vm_compute; left; reflexivity).
  destruct (requests_are_valid scenario (fst confirm_once) ClickConfirm
              (StartTrim 1 10 15 1) Hin)
    as (_ & _ & _ & _ & _ & H0 & _ & H2).
  split; assumption.
Defined.

(** The handlers of the timeline and of the inputs leave the mutation hook
    alone. *)
Lemma handleTimelineChange_hook (s e : float) (st : State) :
  mutation (handleTimelineChange s e st) = mutation st /\
  inFlight (handleTimelineChange s e st) = inFlight st /\
  isPending (handleTimelineChange s e st) = isPending st.
Proof.
  unfold handleTimelineChange. destruct (confirmed st); repeat split.
Qed.

Lemma move_hook (p : Props) (t : float) (st : State) :
  mutation (move p t st) = mutation st /\
  inFlight (move p t st) = inFlight st /\
  isPending (move p t st) = isPending st.
Proof.
  unfold move. destruct (dragging st) as [[|]|];
    [apply handleTimelineChange_hook | apply handleTimelineChange_hook|].
  repeat split.
Qed.

(** Once the flag is up and the mutation it stands for is in flight, a
    render keeps it up. *)
Lemma rerender_pending (st st' : State) :
  mutation st' = mutation st -> inFlight st' = inFlight st ->
  isPending st' = isPending st ->
  isPending st = true -> observed st = true ->
  isPending (rerender st st') = true /\ observed (rerender st st') = true.
Proof.
  intros Hm Hi Hp Hpen Hobs.
  assert (Hobs' : observed st' = true).
  { unfold observed in *. rewrite Hm, Hi. exact Hobs. }
  rewrite observed_rerender. split; [|exact Hobs'].
  unfold rerender. destruct (same_cells st st').
  - rewrite Hp. exact Hpen.
  - exact Hobs'.
Qed.

(** Once the [isPending] flag has been rendered for a submission that is in
    flight, nothing the user does in the dialog sends a second request:
    until the answer arrives the editor stays pending and silent. *)
Theorem pending_sends_nothing (p : Props) (es : list event) (st : State) :
  isPending st = true -> observed st = true ->
  forallb (fun e => negb (is_response e)) es = true ->
  snd (run p st es) = [] /\ isPending (fst (run p st es)) = true.
Proof.
  revert st. induction es as [|e es IH]; intros st Hp Ho Hes; cbn [run].
  - split; [reflexivity | exact Hp].
  - cbn [forallb] in Hes. apply andb_true_iff in Hes. destruct Hes as [He Hes].
    assert (Hstep : snd (step p st e) = [] /\
                    isPending (fst (step p st e)) = true /\
                    observed (fst (step p st e)) = true).
    { destruct e; try discriminate He; cbn [step];
        try (destruct (isProcessing st); cbn [orb fst snd];
             [split; [reflexivity | split; assumption]|]).
      - (* PointerDown *)
        split; [reflexivity|]. unfold handlePointerDown. cbv zeta.
        set (t := toSeconds p x).
        set (d := if Math_abs (t - start st) <=? Math_abs (t - end_ st)
                  then HStart else HEnd).
        destruct (move_hook p t (set_dragging (Some d) st)) as (Hm & Hi & Hq).
        apply rerender_pending; assumption.
      - (* PointerMove *)
        split; [reflexivity|]. unfold handlePointerMove.
        destruct (dragging st) eqn:Hd.
        + destruct (move_hook p (toSeconds p x) st) as (Hm & Hi & Hq).
          apply rerender_pending; assumption.
        + apply rerender_pending; auto.
      - (* PointerUp *)
        split; [reflexivity | split; assumption].
      - (* InputStart *)
        split; [reflexivity|]. apply rerender_pending; auto.
      - (* InputEnd *)
        split; [reflexivity|]. apply rerender_pending; auto.
      - (* ClickConfirm *)
        unfold confirmDisabled. rewrite Hp, orb_true_r. cbn [fst snd].
        split; [reflexivity | split; assumption].
      - (* Notify *)
        split; [reflexivity|]. split; [exact Ho | exact Ho]. }
    destruct (step p st e) as [st1 r1]. cbn [fst snd] in Hstep.
    destruct Hstep as (-> & Hp1 & Ho1).
    specialize (IH st1 Hp1 Ho1 Hes).
    destruct (run p st1 es) as [st2 r2]. cbn [fst snd] in *.
    destruct IH as [-> Hp2]. split; [reflexivity | exact Hp2].
Qed.

Lemma pending_sends_nothing_witness :
  snd (run scenario (fst confirm_twice_notified)
           [ClickConfirm; InputEnd (Some 20); ClickConfirm; ClickConfirm]) = [].
Proof.
  assert (H1 : isPending (fst confirm_twice_notified) = true)
    by (vm_compute; reflexivity).
  assert (H2 : observed (fst confirm_twice_notified) = true)
    by (vm_compute; reflexivity).
  assert (H3 : forallb (fun e => negb (is_response e))
                 [ClickConfirm; InputEnd (Some 20); ClickConfirm; ClickConfirm]
               = true) by (vm_compute; reflexivity).
  apply (pending_sends_nothing scenario _ (fst confirm_twice_notified) H1 H2 H3).
Defined.

(** Retry returns to the editor with the range as it was, sends nothing, and
    re-arms the gate: the next activation only confirms. *)
Theorem retry_rearms_gate (p : Props) (st : State) :
  isProcessing st = true ->
  let st1 := fst (step p st ClickRetry) in
  snd (step p st ClickRetry) = [] /\
  jobId st1 = None /\ confirmed st1 = false /\ isPending st1 = false /\
  start st1 = start st /\ end_ st1 = end_ st /\
  snd (step p st1 ClickConfirm) = [] /\
  (confirmDisabled p st1 = false ->
   confirmed (fst (step p st1 ClickConfirm)) = true).
Proof.
  intros Hp. cbn [step]. rewrite Hp. cbn [fst snd].
  assert (Hr : rerender st (handleRetry st) = render (handleRetry st)).
  { unfold rerender, same_cells. unfold isProcessing in Hp.
    destruct (jobId st) eqn:Hj; [|discriminate].
    cbn [handleRetry reset setConfirmed setJobId jobId same_option].
    rewrite andb_false_r. reflexivity. }
  rewrite Hr.
  set (st1 := render (handleRetry st)).
  assert (Hc : confirmed st1 = false) by reflexivity.
  assert (Hj : isProcessing st1 = false) by reflexivity.
  split; [reflexivity|]. split; [reflexivity|]. split; [reflexivity|].
  split; [reflexivity|]. split; [reflexivity|]. split; [reflexivity|].
  cbn [step]. rewrite Hj. cbn [orb].
  split.
  - destruct (confirmDisabled p st1); [reflexivity|].
    unfold handleConfirm. rewrite Hc. reflexivity.
  - intros Hd. rewrite Hd. cbn [fst]. rewrite confirmed_rerender.
    unfold handleConfirm. rewrite Hc. reflexivity.
Qed.

Lemma retry_rearms_gate_witness :
  jobId (fst (step scenario
                   (fst (step scenario (fst confirm_typed_confirm)
                              (SubmitSucceeded 0 4)))
                   ClickRetry)) = None.
Proof.
  assert (H : isProcessing (fst (step scenario (fst confirm_typed_confirm)
                                      (SubmitSucceeded 0 4))) = true)
    by (vm_compute; reflexivity).
  apply (retry_rearms_gate scenario _ H).
Defined.

(** The dialog can be closed exactly when no job is being processed or the
    job has reached completed or failed; while closing is blocked the job is
    polled every 1500 ms, and polling stops when it is allowed again.  Retry
    is offered for a failed job only. *)
Theorem close_blocked_while_polling
        (p : Props) (st : State) (trimJob : option TrimJobStatus) :
  (existsb calls_onClose (controls p st trimJob) = false <->
   isProcessing st = true /\
   trimJob <> Some TCompleted /\ trimJob <> Some TFailed) /\
  (isProcessing st = true ->
   (existsb calls_onClose (controls p st trimJob) = false <->
    refetchInterval trimJob = Some 1500%nat)) /\
  (In OverlayRetry (controls p st trimJob) <->
   isProcessing st = true /\ trimJob = Some TFailed).
Proof.
  unfold controls.
  destruct (isProcessing st); [destruct trimJob as [[| | |]|]|]; cbn;
    repeat split; intros; try discriminate; try congruence; try tauto;
    repeat match goal with
           | H : _ /\ _ |- _ => destruct H
           | H : _ \/ _ |- _ => destruct H
           | H : In _ (if ?b then _ else _) |- _ => destruct b; cbn in H
           | H : In _ (_ ++ _) |- _ => apply in_app_or in H
           end; try discriminate; try congruence; try tauto.
Qed.

End TrimExtra.

(* ====================================================================== *)
(** * Further properties of the scan toast *)
(* ====================================================================== *)

Module ToastExtra.
Import Toast ToastSpec.
Local Open Scope nat_scope.
Local Open Scope string_scope.
Local Open Scope list_scope.

Lemma invalidated_app (l1 l2 : list action) :
  invalidated (l1 ++ l2) = invalidated l1 ++ invalidated l2.
Proof.
  induction l1 as [|a l1 IH]; cbn; [reflexivity|].
  destruct a; cbn; rewrite IH; reflexivity.
Qed.

(** The caches of the listings are invalidated when a final status
    "completed" arrives, once each, and by nothing else (not by feed updates,
    timers or clicks); a successful cancel invalidates the active-jobs query
    only. *)
Theorem invalidation_once_per_completion (w w' : World) (e : event) :
  step w e = Some w' ->
  exists acts, log w' = log w ++ acts /\ invalidated acts = invalidates e.
Proof.
  intros H.
  step_cases H;
    try (eexists; split; [rewrite log_commit; reflexivity|]);
    unfold invalidates; cbn [is_completion].
  - destruct jobs as [|j js]; cbn [onActiveJobs].
    + destruct (wasRunning (comp w)); [destruct (snap (comp w))|]; reflexivity.
    + destruct (dismissTimer (comp w)); reflexivity.
  - unfold onGetJobResolved. destruct (status finalJob); reflexivity.
  - reflexivity.
  - reflexivity.
  - cbn. destruct (dismissTimer (comp w)); reflexivity.
  - cbn. destruct (dismissTimer (comp w)); reflexivity.
  - cbn. destruct (snap (comp w)); reflexivity.
  - reflexivity.
  - exists []. split; [symmetry; apply app_nil_r | reflexivity].
Qed.

Lemma invalidation_once_per_completion_witness :
  exists acts,
    log (after scan_scenario) = log (after (firstn 2 scan_scenario)) ++ acts /\
    invalidated acts = ["stats"; "media-list"; "media"].
Proof.
  assert (H : step (after (firstn 2 scan_scenario))
                   (GetJobResolved 1 (job 1 Completed 10 3)) =
              Some (after scan_scenario))
    by (vm_compute; reflexivity).
  exact (@invalidation_once_per_completion _ _ _ H).
Defined.



Lemma timeout_disabled (t : timer) (w : World) :
  ~ In t (timers w) -> step w (Timeout t) = None.
Proof.
  intros H. cbn [step]. destruct (armed t w) eqn:Ha; [|reflexivity].
  apply armed_In in Ha. contradiction.
Qed.

(** Dismissing hides the toast and clears the timer recorded in
    [dismissTimer], which can then no longer fire. *)
Theorem dismiss_disarms_timer (w w' : World) :
  step w ClickDismiss = Some w' ->
  phase (comp w') = hidden /\ visible (comp w') = false /\
  snap (comp w') = snap (comp w) /\
  match dismissTimer (comp w) with
  | Some t => log w' = log w ++ [ClearTimeout t] /\
              ~ In t (timers w') /\ step w' (Timeout t) = None
  | None => log w' = log w /\ timers w' = timers w
  end.
Proof.
  intros H. cbn [step] in H.
  assert (Hw : w' = commit w (dismiss (comp w))).
  { destruct (visible (comp w)); [|discriminate].
    destruct (phase (comp w)); try discriminate; injection H as <-; reflexivity. }
  clear H. subst w'. rewrite comp_commit, log_commit.
  split; [reflexivity|]. split; [reflexivity|]. split; [reflexivity|].
  unfold dismiss. cbn [snd].
  destruct (dismissTimer (comp w)) as [t|] eqn:Hd.
  - assert (Hgone : ~ In t (timers (commit w (dismiss (comp w))))).
    { unfold commit, dismiss. rewrite Hd. cbn. apply remove_In. }
    unfold dismiss in Hgone. rewrite Hd in Hgone.
    split; [reflexivity|]. split; [exact Hgone|].
    apply timeout_disabled, Hgone.
  - rewrite app_nil_r. split; reflexivity.
Qed.

Lemma dismiss_disarms_timer_witness :
  phase (comp (after (scan_scenario ++ [ClickDismiss]))) = hidden /\
  step (after (scan_scenario ++ [ClickDismiss])) (Timeout 1%positive) = None.
Proof.
  assert (H : step (after scan_scenario) ClickDismiss =
              Some (after (scan_scenario ++ [ClickDismiss])))
    by (vm_compute; reflexivity).
  destruct (@dismiss_disarms_timer _ _ H) as (H1 & _ & _ & H4).
  split; [exact H1|].
  change (dismissTimer (comp (after scan_scenario))) with (Some 1%positive) in H4.
  apply H4.
Defined.

(** Until the feed shows an active job the toast does nothing at all: it
    renders nothing, sends nothing, arms no timer, and no response, timer or
    click can reach it. *)
Theorem silent_until_first_job (es : list event) (w : World) :
  run (mount None) es = Some w ->
  forallb (fun e => negb (is_active_feed e)) es = true ->
  w = mount None /\
  forallb (fun e => match e with ActiveJobs [] => true | _ => false end) es
    = true.
Proof.
  revert w. induction es as [|e es IH]; intros w H Hq; cbn in H.
  - injection H as <-. split; reflexivity.
  - cbn [forallb] in Hq. apply andb_true_iff in Hq. destruct Hq as [He Hes].
    destruct e as [[|j js]| | | | | | |]; try discriminate.
    cbn in H. change (run (mount None) es = Some w) in H.
    destruct (IH w H Hes) as [-> Hall]. split; [reflexivity | exact Hall].
Qed.

Lemma silent_until_first_job_witness :
  after [ActiveJobs []; ActiveJobs []] = mount None.
Proof.
  apply (@silent_until_first_job [ActiveJobs []; ActiveJobs []]
           (after [ActiveJobs []; ActiveJobs []])); reflexivity.
Defined.

End ToastExtra.

(* ====================================================================== *)
(** * Further properties of the Plex connection flow *)
(* ====================================================================== *)

Module PlexExtra.
Import Plex PlexSpec.
Local Open Scope nat_scope.
Local Open Scope string_scope.
Local Open Scope list_scope.
Unset Implicit Arguments.

(** ** Status *)

(** The connection status decides the phase only while loading: an account
    that is already connected goes straight to connected, any other to idle.
    Once loading is left it is never entered again, and later values of the
    status change nothing and send nothing. *)
Theorem status_only_while_loading (w w' : World) (e : event) :
  step w e = Some w' ->
  (forall c, e = StatusLoaded c -> phase (comp w) = loading ->
     phase (comp w') = (if c then connected else idle) /\ log w' = log w) /\
  (forall c, e = StatusLoaded c -> phase (comp w) <> loading ->
     comp w' = comp w /\ log w' = log w) /\
  (phase (comp w) <> loading -> phase (comp w') <> loading).
Proof.
  intros H. split; [|split].
  - intros c -> Hl. cbn [step] in H. injection H as <-.
    rewrite flow_comp_commit, flow_log_commit. unfold onStatus. rewrite Hl.
    cbn. rewrite app_nil_r. split; reflexivity.
  - intros c -> Hl. cbn [step] in H. injection H as <-.
    rewrite flow_comp_commit, flow_log_commit. unfold onStatus.
    destruct (phase (comp w)) eqn:Hph; try congruence; cbn; rewrite app_nil_r;
      split; reflexivity.
  - intros Hl.
    flow_cases H; rewrite ?flow_comp_commit; handlers; cbn;
      try discriminate; try exact Hl; try congruence;
      try (destruct (pollRef (comp w)); cbn; discriminate).
    + destruct (phase (comp w)) eqn:Hph; cbn; congruence.
    + destruct res as [[|]|]; cbn; try exact Hl.
      destruct (pollRef (comp w)); cbn; discriminate.
    + destruct res; cbn; exact Hl.
Qed.

Lemma status_only_while_loading_witness :
  phase (comp (after [StatusLoaded true])) = connected /\
  phase (comp (after (to_awaiting_auth ++ [StatusLoaded true]))) = awaiting_auth.
Proof.
  assert (H1 : step mount (StatusLoaded true) = Some (after [StatusLoaded true]))
    by (vm_compute; reflexivity).
  assert (H2 : step (after to_awaiting_auth) (StatusLoaded true) =
               Some (after (to_awaiting_auth ++ [StatusLoaded true])))
    by (vm_compute; reflexivity).
  destruct (status_only_while_loading _ _ _ H1) as (Ha & _).
  destruct (status_only_while_loading _ _ _ H2) as (_ & Hb & _).
  split.
  - apply (Ha true eq_refl eq_refl).
  - destruct (Hb true eq_refl) as [Hc _]; [vm_compute; discriminate|].
    rewrite Hc. vm_compute. reflexivity.
Defined.

(** ** Intervals *)

(** The flow never has more than one poll interval armed, and the armed one
    is always the one recorded in [pollRef], so that [stopPolling] stops all
    polling. *)
Theorem at_most_one_interval (es : list event) (w : World) :
  run mount es = Some w ->
  List.length (intervals w) <= 1 /\
  intervals_recorded w /\
  (pollRef (comp w) = None -> intervals w = []) /\
  intervals (commit w (stopPolling (comp w))) = [].
Proof.
  intros Hrun.
  assert (Hinv : forall es w0 w1, intervals_recorded w0 ->
                   List.length (intervals w0) <= 1 ->
                   run w0 es = Some w1 -> List.length (intervals w1) <= 1).
  { clear. induction es as [|e es IH]; intros w0 w1 Hrec Hlen H; cbn in H.
    - injection H as <-. exact Hlen.
    - destruct (step w0 e) as [w'|] eqn:He; [|discriminate].
      apply (IH w' w1 (recorded_step _ _ _ Hrec He)); [|exact H].
      destruct (step_intervals w0 w' e Hrec He)
        as [[Hi _] | [[Hi _] | [_ (id & Hi & _)]]]; rewrite Hi; cbn; lia. }
  pose proof (recorded_run _ _ _ recorded_mount Hrun) as Hrec.
  split; [apply (Hinv es mount w recorded_mount); [cbn; lia | exact Hrun]|].
  split; [exact Hrec|]. split.
  - intros Hn. apply recorded_none. intros x Hx. rewrite <- Hn. apply Hrec, Hx.
  - unfold commit, stopPolling.
    destruct (pollRef (comp w)) as [h|] eqn:Hp; cbn.
    + apply recorded_filtered. intros x Hx. rewrite <- Hp. apply Hrec, Hx.
    + apply recorded_none. intros x Hx. rewrite <- Hp. apply Hrec, Hx.
Qed.

Lemma at_most_one_interval_witness :
  List.length (intervals (after to_awaiting_auth)) <= 1.
Proof.
  assert (H : run mount to_awaiting_auth = Some (after to_awaiting_auth))
    by (vm_compute; reflexivity).
  exact (proj1 (at_most_one_interval _ _ H)).
Defined.

(** ** Polls that fail *)

(** A poll that is refused or fails is swallowed: the flow, its error and its
    interval are as before, and the next tick polls again. *)
Theorem poll_failure_keeps_polling
        (w w1 w2 : World) (h : interval) (id : nat) (res : option bool) :
  step w (Tick h) = Some w1 ->
  step w1 (PollAnswered id res) = Some w2 ->
  not_authorized res = true ->
  comp w2 = comp w /\ intervals w2 = intervals w /\
  log w2 = log w1 /\
  exists id' w3, step w2 (Tick h) = Some w3 /\
                 log w3 = log w2 ++ [PlexAuthPoll id'].
Proof.
  intros H1 H2 Hna. cbn [step] in H1.
  destruct (polled h (intervals w)) as [id0|] eqn:Hp; [|discriminate].
  injection H1 as <-. cbn [step] in H2.
  destruct (in_flight (KPoll id) _); [|discriminate]. injection H2 as <-.
  rewrite flow_comp_commit, flow_log_commit.
  assert (Hres : pollAnswered res (comp w) = (comp w, [])).
  { destruct res as [[|]|]; [discriminate | reflexivity | reflexivity]. }
  rewrite Hres. cbn [fst snd settle log]. rewrite app_nil_r.
  split; [reflexivity|]. split; [reflexivity|]. split; [reflexivity|].
  exists id0. eexists. split.
  - cbn [step]. unfold commit. cbn. rewrite Hp. reflexivity.
  - unfold commit. cbn. rewrite ?app_nil_r. reflexivity.
Qed.

Lemma poll_failure_keeps_polling_witness :
  comp (after (to_awaiting_auth ++ [Tick 1%positive; PollAnswered 7 None])) =
  comp (after to_awaiting_auth).
Proof.
  assert (H1 : step (after to_awaiting_auth) (Tick 1%positive) =
               Some (after (to_awaiting_auth ++ [Tick 1%positive])))
    by (vm_compute; reflexivity).
  assert (H2 : step (after (to_awaiting_auth ++ [Tick 1%positive]))
                    (PollAnswered 7 None) =
               Some (after (to_awaiting_auth ++
                            [Tick 1%positive; PollAnswered 7 None])))
    by (vm_compute; reflexivity).
  exact (proj1 (poll_failure_keeps_polling _ _ _ _ _ _ H1 H2 eq_refl)).
Defined.

(** ** The server list *)

(** When the server list cannot be fetched after the authorization, the
    failure is swallowed too: the flow stays in picking_server with the list
    it had, shows no error and does not ask again; with an empty list no
    server can be chosen. *)
Theorem servers_failure_is_silent (w w1 w2 : World) (id : nat) :
  step w (PollAnswered id (Some true)) = Some w1 ->
  step w1 (ServersAnswered None) = Some w2 ->
  phase (comp w2) = picking_server /\ pollRef (comp w2) = None /\
  servers (comp w2) = servers (comp w) /\ error (comp w2) = error (comp w) /\
  log w2 = log w1 /\
  (servers (comp w) = [] -> forall s, step w2 (ClickSelect s) = None).
Proof.
  intros H1 H2. cbn [step] in H1.
  destruct (in_flight (KPoll id) w); [|discriminate]. injection H1 as <-.
  cbn [step] in H2.
  destruct (in_flight KServers _); [|discriminate]. injection H2 as <-.
  rewrite !flow_comp_commit, !flow_log_commit.
  unfold pollAnswered, stopPolling, serversAnswered.
  destruct (pollRef (comp w)) eqn:Hp; cbn;
    rewrite ?app_nil_r, ?Hp, <- ?app_assoc; cbn;
    (do 5 (split; [reflexivity|]); intros Hs s; cbn [step]; unfold commit;
     cbn; rewrite Hs; reflexivity).
Qed.

Lemma servers_failure_is_silent_witness :
  phase (comp (after (auth_scenario ++ [ServersAnswered None]))) = picking_server /\
  error (comp (after (auth_scenario ++ [ServersAnswered None]))) = None /\
  step (after (auth_scenario ++ [ServersAnswered None]))
       (ClickSelect home_server) = None.
Proof.
  assert (H1 : step (after (removelast auth_scenario))
                    (PollAnswered 7 (Some true)) = Some (after auth_scenario))
    by (vm_compute; reflexivity).
  assert (H2 : step (after auth_scenario) (ServersAnswered None) =
               Some (after (auth_scenario ++ [ServersAnswered None])))
    by (vm_compute; reflexivity).
  destruct (servers_failure_is_silent _ _ _ _ H1 H2)
    as (F1 & _ & _ & F4 & _ & F6).
  split; [exact F1|]. split; [rewrite F4; vm_compute; reflexivity|].
  apply F6. vm_compute. reflexivity.
Defined.

(** ** Saving the library selection *)



(** ** The library picker *)

Lemma has_app (k : string) (s1 s2 : list string) :
  has k (s1 ++ s2) = has k s1 || has k s2.
Proof. apply existsb_app. Qed.

Lemma has_add (k k' : string) (s : list string) :
  has k (add k' s) = String.eqb k k' || has k s.
Proof.
  unfold add. destruct (has k' s) eqn:Hk.
  - destruct (String.eqb_spec k k') as [->|]; [rewrite Hk|]; reflexivity.
  - rewrite has_app. cbn. rewrite orb_false_r. apply orb_comm.
Qed.

Lemma has_delete (k k' : string) (s : list string) :
  has k (delete k' s) = negb (String.eqb k k') && has k s.
Proof.
  unfold has, delete. induction s as [|x s IH]; cbn.
  - apply eq_sym, andb_false_r.
  - destruct (String.eqb_spec k' x) as [->|Hx]; cbn; rewrite IH.
    + destruct (String.eqb_spec k x); reflexivity.
    + destruct (String.eqb_spec k x) as [->|].
      * destruct (String.eqb_spec x k'); [congruence | reflexivity].
      * reflexivity.
Qed.

Lemma has_fold_add (k : string) (l acc : list string) :
  has k (fold_left (fun s x => add x s) l acc) = has k l || has k acc.
Proof.
  revert acc. induction l as [|x l IH]; intros acc; cbn [fold_left].
  - reflexivity.
  - rewrite IH, has_add. unfold has at 3. cbn [existsb].
    fold (has k l).
    destruct (String.eqb k x), (has k l), (has k acc); reflexivity.
Qed.

Lemma has_map_key (k : string) (f : PlexLibrary -> bool) (libs : list PlexLibrary) :
  has k (map key (filter f libs)) =
  existsb (fun l => String.eqb k (key l) && f l) libs.
Proof.
  unfold has. induction libs as [|l libs IH]; cbn; [reflexivity|].
  destruct (f l); cbn; rewrite IH, ?andb_true_r, ?andb_false_r; reflexivity.
Qed.

(** Toggling a key flips its membership and no other; toggling it twice
    gives back a set with the same members. *)
Theorem toggle_flips_one (k k' : string) (s : list string) :
  has k (toggle k s) = negb (has k s) /\
  (k' <> k -> has k' (toggle k s) = has k' s) /\
  has k' (toggle k (toggle k s)) = has k' s.
Proof.
  assert (Hflip : forall s0, has k (toggle k s0) = negb (has k s0)).
  { intros s0. unfold toggle. destruct (has k s0) eqn:Hk.
    - rewrite has_delete, String.eqb_refl. reflexivity.
    - rewrite has_add, String.eqb_refl. reflexivity. }
  assert (Hother : forall s0, k' <> k -> has k' (toggle k s0) = has k' s0).
  { intros s0 Hne. unfold toggle.
    destruct (String.eqb_spec k' k) as [|_]; [contradiction|].
    destruct (has k s0); [rewrite has_delete | rewrite has_add];
      destruct (String.eqb_spec k' k); try contradiction; reflexivity. }
  split; [apply Hflip|]. split; [apply Hother|].
  destruct (String.eqb_spec k' k) as [->|Hne].
  - rewrite Hflip, Hflip. apply negb_involutive.
  - rewrite Hother, Hother by exact Hne. reflexivity.
Qed.

(** The selection the picker starts with: the libraries the server reports
    as selected if there is one, else the movie and show libraries; never a
    key that is not a library. *)
Theorem initial_selection_members (libs : list PlexLibrary) (k : string) :
  has k (initialSelection libs) =
  existsb (fun l => String.eqb k (key l) &&
                    (if existsb selected libs then selected l else wanted_type l))
          libs.
Proof.
  unfold initialSelection, newSet. rewrite has_fold_add. cbn. rewrite orb_false_r.
  destruct (existsb selected libs); apply has_map_key.
Qed.

Lemma has_In (k : string) (s : list string) : has k s = true <-> In k s.
Proof.
  unfold has. rewrite existsb_exists. split.
  - intros (x & Hx & Hq). apply String.eqb_eq in Hq. subst x. exact Hx.
  - intros H. exists k. split; [exact H | apply String.eqb_refl].
Qed.

Lemma NoDup_add (k : string) (s : list string) : NoDup s -> NoDup (add k s).
Proof.
  intros H. unfold add. destruct (has k s) eqn:Hk; [exact H|].
  apply NoDup_app; [exact H | constructor; [intros [] | constructor] |].
  intros x Hx [<- | []]. apply has_In in Hx. congruence.
Qed.

(** The selection never holds a key twice: neither the initial one, whatever
    the server lists, nor any selection obtained by toggling; so the keys
    sent on save are distinct. *)
Theorem selection_has_no_duplicates
        (libs : list PlexLibrary) (ks : list string) :
  NoDup (fold_right toggle (initialSelection libs) ks).
Proof.
  induction ks as [|k ks IH]; cbn [fold_right].
  - unfold initialSelection, newSet.
    generalize (if existsb selected libs
                then map key (filter selected libs)
                else map key (filter wanted_type libs)).
    intros l.
    assert (H : forall acc, NoDup acc ->
                  NoDup (fold_left (fun s k => add k s) l acc)).
    { induction l as [|x l IHl]; intros acc Hacc; cbn [fold_left].
      - exact Hacc.
      - apply IHl, NoDup_add, Hacc. }
    apply H. constructor.
  - unfold toggle at 1. destruct (has k _).
    + unfold delete. apply NoDup_filter, IH.
    + apply NoDup_add, IH.
Qed.

Set Implicit Arguments.

End PlexExtra.
